(** * The section tree of the CV editor, and its persistence

    A shallow embedding of the document model of the CV creator:

    - [src/components/CVEditor.tsx]: the [Section] and [CVData] interfaces,
      the load effect, [saveCVData], [updateSection] with its inner
      [updateSectionRecursive], [addSection] with its [newSection] literal
      and its inner [addSectionRecursive];
    - [src/components/CVSidebar.tsx]: [createNewCV] and its
      [initialCVData] literal;
    - [src/components/CVSection.tsx]: the [styles] interface with the
      three border fields, the update objects of [handleSaveText],
      [handleSaveStyles] and [handleFileChange], and the [border] of the
      rendered box.

    How the program is modelled:

    - a TypeScript object of a declared interface is a record, and
      [{...section, f: v}] is the record with one field replaced: values
      are never changed in place;
    - a JavaScript string is a [string], one character per code unit, so
      the model covers code units up to U+00FF;
    - [crypto.randomUUID()] is an input of the function that calls it;
    - [localStorage] is a finite map from keys to texts, without a quota;
    - [JSON.stringify] and [JSON.parse] are modelled on the values a
      document is made of (module [JSON]);
    - React state is a record ([State]); a handler or an effect is a
      function from the state to its [outcome]. *)

From Stdlib Require Import String Ascii List Bool Arith Lia DecimalString.
From stdpp Require Import base option list strings gmap.
Import ListNotations.

Local Open Scope string_scope.
Local Open Scope list_scope.

(** ** Data model (the TypeScript interfaces) *)

(** [type: 'container' | 'text' | 'image'] *)
Inductive SectionType : Type :=
| container
| text
| image.

(** The [styles] object.  [CVEditor.tsx] declares the three fields
    [backgroundColor], [padding], [margin]; [CVSection.tsx] declares the
    three border fields on top of them and reads each of them through
    [section.styles.borderStyle || 'none'], because the objects built by
    [addSection] and [createNewCV] do not carry them.  A border field is
    therefore optional: [None] is an absent property. *)
Record Styles : Type := mkStyles {
  backgroundColor : string;
  padding : string;
  margin : string;
  borderStyle : option string;
  borderWidth : option string;
  borderColor : option string
}.

#[local] Unset Elimination Schemes.

(** [interface Section] *)
Inductive Section : Type := mkSection {
  id : string;
  type : SectionType;
  content : string;
  styles : Styles;
  children : list Section
}.

#[local] Set Elimination Schemes.

(** [interface CVData] *)
Record CVData : Type := mkCVData {
  sections : list Section
}.

(** [Partial<Section>]: every field of [Section], each one optional. *)
Record PartialSection : Type := mkPartial {
  p_id : option string;
  p_type : option SectionType;
  p_content : option string;
  p_styles : option Styles;
  p_children : option (list Section)
}.

(** The update objects the editor builds, and three more. *)

(** [{ content: textContent, type: 'text' }] of [handleSaveText] and
    [{ content: imageUrl, type: 'image' }] of [handleFileChange]. *)
Definition content_and_type (c : string) (t : SectionType) : PartialSection :=
  mkPartial None (Some t) (Some c) None None.

(** [{ styles: {...} }] of [handleSaveStyles]. *)
Definition only_styles (s : Styles) : PartialSection :=
  mkPartial None None None (Some s) None.

(** [{ content: c }] *)
Definition only_content (c : string) : PartialSection :=
  mkPartial None None (Some c) None None.

(** [{ children: c }] *)
Definition only_children (c : list Section) : PartialSection :=
  mkPartial None None None None (Some c).

(** [{ id: i }] *)
Definition only_id (i : string) : PartialSection :=
  mkPartial (Some i) None None None None.

(** ** Object spread *)

(** [{ ...section, ...updates }]: a property present in [updates] replaces
    the property of [section], whole. *)
Definition spread (section : Section) (updates : PartialSection) : Section :=
  mkSection
    (default (id section) (p_id updates))
    (default (type section) (p_type updates))
    (default (content section) (p_content updates))
    (default (styles section) (p_styles updates))
    (default (children section) (p_children updates)).

(** [{ ...section, children: cs }] *)
Definition with_children (section : Section) (cs : list Section) : Section :=
  mkSection (id section) (type section) (content section) (styles section) cs.

(** [{ ...section, content: c }], used to state results. *)
Definition with_content (section : Section) (c : string) : Section :=
  mkSection (id section) (type section) c (styles section) (children section).

(** ** JavaScript values and JSON text

    What [JSON.parse] returns and [JSON.stringify] takes: the values of the
    JSON data model.  An object is its own properties in insertion order,
    each key once.  Numbers are left out: no document holds one. *)

#[local] Unset Elimination Schemes.

Inductive jsval : Type :=
| JNull
| JBool (b : bool)
| JStr (s : string)
| JArr (items : list jsval)
| JObj (props : list (string * jsval)).

#[local] Set Elimination Schemes.

(** The result of a parsing function: a value and the text behind it, a
    [SyntaxError], or text outside the fragment modelled here. *)
Inductive presult (A : Type) : Type :=
| Ok (a : A) (rest : string)
| SyntaxError
| Unsupported.
Arguments Ok {A} a rest.
Arguments SyntaxError {A}.
Arguments Unsupported {A}.

(** The built-ins [JSON.stringify] and [JSON.parse], after ECMA-262
    (QuoteJSONString, SerializeJSONArray, SerializeJSONObject and the JSON
    grammar), for code units up to U+00FF.  A number literal and a [\u]
    escape above U+00FF are reported as [Unsupported], never as an error
    or a value. *)
Module JSON.
Local Open Scope string_scope.

Definition dquote : ascii := "034"%char.
Definition backslash : ascii := "092"%char.

Definition hex_digit (n : nat) : ascii :=
  match String.get n "0123456789abcdef" with
  | Some c => c
  | None => "0"%char
  end.

Definition escape_char (c : ascii) : string :=
  if Ascii.eqb c dquote then String backslash (String dquote "")
  else if Ascii.eqb c backslash then String backslash (String backslash "")
  else if Ascii.eqb c "008" then String backslash "b"
  else if Ascii.eqb c "009" then String backslash "t"
  else if Ascii.eqb c "010" then String backslash "n"
  else if Ascii.eqb c "012" then String backslash "f"
  else if Ascii.eqb c "013" then String backslash "r"
  else if (nat_of_ascii c <? 32)%nat then
    String backslash
      ("u00" ++ String (hex_digit (nat_of_ascii c / 16))
                  (String (hex_digit (nat_of_ascii c mod 16)) ""))
  else String c "".

Fixpoint escape (s : string) : string :=
  match s with
  | "" => ""
  | String c r => escape_char c ++ escape r
  end.

Definition quote (s : string) : string :=
  String dquote (escape s ++ String dquote "").

Fixpoint elements_with (pr : jsval -> string) (l : list jsval) : string :=
  match l with
  | [] => "]"
  | x :: r =>
      match r with
      | [] => pr x ++ "]"
      | _ :: _ => pr x ++ "," ++ elements_with pr r
      end
  end.

Fixpoint members_with (pr : jsval -> string) (l : list (string * jsval))
    : string :=
  match l with
  | [] => "}"
  | (k, x) :: r =>
      match r with
      | [] => quote k ++ ":" ++ pr x ++ "}"
      | _ :: _ => quote k ++ ":" ++ pr x ++ "," ++ members_with pr r
      end
  end.

Fixpoint stringify (v : jsval) : string :=
  match v with
  | JNull => "null"
  | JBool true => "true"
  | JBool false => "false"
  | JStr s => quote s
  | JArr items => "[" ++ elements_with stringify items
  | JObj props => "{" ++ members_with stringify props
  end.

Definition hex_value (c : ascii) : option nat :=
  let n := nat_of_ascii c in
  if (48 <=? n)%nat && (n <=? 57)%nat then Some (n - 48)
  else if (97 <=? n)%nat && (n <=? 102)%nat then Some (n - 87)
  else if (65 <=? n)%nat && (n <=? 70)%nat then Some (n - 55)
  else None.

Definition prepend (c : ascii) (r : presult string) : presult string :=
  match r with
  | Ok s rest => Ok (String c s) rest
  | SyntaxError => SyntaxError
  | Unsupported => Unsupported
  end.

Fixpoint parse_chars (s : string) : presult string :=
  match s with
  | "" => SyntaxError
  | String c r =>
      if Ascii.eqb c dquote then Ok "" r
      else if Ascii.eqb c backslash then
        match r with
        | String e r' =>
            if Ascii.eqb e dquote then prepend dquote (parse_chars r')
            else if Ascii.eqb e backslash then prepend backslash (parse_chars r')
            else if Ascii.eqb e "/" then prepend "/" (parse_chars r')
            else if Ascii.eqb e "b" then prepend "008" (parse_chars r')
            else if Ascii.eqb e "f" then prepend "012" (parse_chars r')
            else if Ascii.eqb e "n" then prepend "010" (parse_chars r')
            else if Ascii.eqb e "r" then prepend "013" (parse_chars r')
            else if Ascii.eqb e "t" then prepend "009" (parse_chars r')
            else if Ascii.eqb e "u" then
              match r' with
              | String h1 (String h2 (String h3 (String h4 r''))) =>
                  match hex_value h1, hex_value h2, hex_value h3, hex_value h4 with
                  | Some a, Some b, Some c', Some d =>
                      if (a =? 0)%nat && (b =? 0)%nat
                      then prepend (ascii_of_nat (16 * c' + d)) (parse_chars r'')
                      else Unsupported
                  | _, _, _, _ => SyntaxError
                  end
              | _ => SyntaxError
              end
            else SyntaxError
        | "" => SyntaxError
        end
      else if (nat_of_ascii c <? 32)%nat then SyntaxError
      else prepend c (parse_chars r)
  end.

Definition is_ws (c : ascii) : bool :=
  Ascii.eqb c " " || Ascii.eqb c "009" || Ascii.eqb c "010" || Ascii.eqb c "013".

Fixpoint skip_ws (s : string) : string :=
  match s with
  | String c r => if is_ws c then skip_ws r else s
  | "" => ""
  end.

Definition is_number_start (c : ascii) : bool :=
  Ascii.eqb c "-" || ((48 <=? nat_of_ascii c)%nat && (nat_of_ascii c <=? 57)%nat).

Fixpoint obj_set (k : string) (v : jsval) (props : list (string * jsval))
    : list (string * jsval) :=
  match props with
  | [] => [(k, v)]
  | (k', v') :: r =>
      if String.eqb k' k then (k', v) :: r else (k', v') :: obj_set k v r
  end.

Definition obj_of_members (members : list (string * jsval)) : jsval :=
  JObj (fold_left (fun acc kv => obj_set (fst kv) (snd kv) acc) members []).

Definition bind {A B : Type} (r : presult A)
    (k : A -> string -> presult B) : presult B :=
  match r with
  | Ok a rest => k a rest
  | SyntaxError => SyntaxError
  | Unsupported => Unsupported
  end.

Fixpoint parse_value (fuel : nat) (s : string) : presult jsval :=
  match fuel with
  | O => Unsupported
  | S fuel =>
      match skip_ws s with
      | "" => SyntaxError
      | String c r =>
          if Ascii.eqb c "[" then
            match skip_ws r with
            | String c' r' =>
                if Ascii.eqb c' "]" then Ok (JArr []) r'
                else bind (parse_elements fuel r) (fun l rest => Ok (JArr l) rest)
            | "" => SyntaxError
            end
          else if Ascii.eqb c "{" then
            match skip_ws r with
            | String c' r' =>
                if Ascii.eqb c' "}" then Ok (JObj []) r'
                else bind (parse_members fuel r)
                       (fun l rest => Ok (obj_of_members l) rest)
            | "" => SyntaxError
            end
          else if Ascii.eqb c dquote then
            bind (parse_chars r) (fun str rest => Ok (JStr str) rest)
          else if is_number_start c then Unsupported
          else
            match skip_ws s with
            | String "n" (String "u" (String "l" (String "l" rest))) =>
                Ok JNull rest
            | String "t" (String "r" (String "u" (String "e" rest))) =>
                Ok (JBool true) rest
            | String "f" (String "a" (String "l" (String "s" (String "e" rest)))) =>
                Ok (JBool false) rest
            | _ => SyntaxError
            end
      end
  end
with parse_elements (fuel : nat) (s : string) : presult (list jsval) :=
  match fuel with
  | O => Unsupported
  | S fuel =>
      bind (parse_value fuel s) (fun v rest =>
        match skip_ws rest with
        | String c r =>
            if Ascii.eqb c "," then
              bind (parse_elements fuel r) (fun l rest' => Ok (v :: l) rest')
            else if Ascii.eqb c "]" then Ok [v] r
            else SyntaxError
        | "" => SyntaxError
        end)
  end
with parse_members (fuel : nat) (s : string) : presult (list (string * jsval)) :=
  match fuel with
  | O => Unsupported
  | S fuel =>
      match skip_ws s with
      | String c r =>
          if Ascii.eqb c dquote then
            bind (parse_chars r) (fun k rest =>
              match skip_ws rest with
              | String c1 r1 =>
                  if Ascii.eqb c1 ":" then
                    bind (parse_value fuel r1) (fun v rest1 =>
                      match skip_ws rest1 with
                      | String c2 r2 =>
                          if Ascii.eqb c2 "," then
                            bind (parse_members fuel r2)
                              (fun l rest2 => Ok ((k, v) :: l) rest2)
                          else if Ascii.eqb c2 "}" then Ok [(k, v)] r2
                          else SyntaxError
                      | "" => SyntaxError
                      end)
                  else SyntaxError
              | "" => SyntaxError
              end)
          else SyntaxError
      | "" => SyntaxError
      end
  end.

Inductive parsed : Type :=
| Parsed (v : jsval)
| Throws_SyntaxError
| Not_modelled.

Definition parse (s : string) : parsed :=
  match parse_value (2 * String.length s + 2) s with
  | Ok v rest =>
      match skip_ws rest with
      | "" => Parsed v
      | String _ _ => Throws_SyntaxError
      end
  | SyntaxError => Throws_SyntaxError
  | Unsupported => Not_modelled
  end.

End JSON.

(** ** The persisted record shape

    The JavaScript objects behind the typed records: what the object
    literals of [addSection], [createNewCV] and [handleSaveStyles] build,
    with their properties in the order of the literals. *)

Definition type_name (t : SectionType) : string :=
  match t with
  | container => "container"
  | text => "text"
  | image => "image"
  end.

Definition optional_prop (k : string) (o : option string)
    : list (string * jsval) :=
  match o with
  | Some s => [(k, JStr s)]
  | None => []
  end.

Definition encode_styles (s : Styles) : jsval :=
  JObj ([ ("backgroundColor", JStr (backgroundColor s));
          ("padding", JStr (padding s));
          ("margin", JStr (margin s)) ]
        ++ optional_prop "borderStyle" (borderStyle s)
        ++ optional_prop "borderWidth" (borderWidth s)
        ++ optional_prop "borderColor" (borderColor s)).

Fixpoint encode_section (section : Section) : jsval :=
  match section with
  | mkSection i t c s ch =>
      JObj [ ("id", JStr i);
             ("type", JStr (type_name t));
             ("content", JStr c);
             ("styles", encode_styles s);
             ("children", JArr (map encode_section ch)) ]
  end.

Definition encode_CVData (data : CVData) : jsval :=
  JObj [ ("sections", JArr (map encode_section (sections data))) ].

(** The names of the properties of an object. *)
Definition keys (v : jsval) : list string :=
  match v with
  | JObj props => map fst props
  | _ => []
  end.

(** Property access [o.k] on an object; [None] is [undefined]. *)
Definition get_prop (k : string) (props : list (string * jsval)) : option jsval :=
  snd <$> find (fun kv => String.eqb (fst kv) k) props.

Definition as_string (v : jsval) : option string :=
  match v with
  | JStr s => Some s
  | _ => None
  end.

Definition type_of_name (s : string) : option SectionType :=
  if String.eqb s "container" then Some container
  else if String.eqb s "text" then Some text
  else if String.eqb s "image" then Some image
  else None.

Definition as_optional_string (o : option jsval) : option (option string) :=
  match o with
  | None => Some None
  | Some (JStr s) => Some (Some s)
  | Some _ => None
  end.

(** A value read as [Styles], [Section] and [CVData]: [None] when a
    required property is missing or has the wrong type.  This is the
    check that the unchecked cast of [JSON.parse]'s result stands for; no
    function of the source performs it. *)
Definition decode_styles (v : jsval) : option Styles :=
  match v with
  | JObj props =>
      bg ← get_prop "backgroundColor" props ≫= as_string;
      pad ← get_prop "padding" props ≫= as_string;
      mar ← get_prop "margin" props ≫= as_string;
      bs ← as_optional_string (get_prop "borderStyle" props);
      bw ← as_optional_string (get_prop "borderWidth" props);
      bc ← as_optional_string (get_prop "borderColor" props);
      Some (mkStyles bg pad mar bs bw bc)
  | _ => None
  end.

Fixpoint decode_section (v : jsval) : option Section :=
  match v with
  | JObj props =>
      i ← get_prop "id" props ≫= as_string;
      t ← (get_prop "type" props ≫= as_string) ≫= type_of_name;
      c ← get_prop "content" props ≫= as_string;
      s ← get_prop "styles" props ≫= decode_styles;
      ch ← (fix children_of (l : list (string * jsval)) : option (list Section) :=
              match l with
              | [] => None
              | (k, x) :: r =>
                  if String.eqb k "children" then
                    match x with
                    | JArr items =>
                        (fix all (l : list jsval) : option (list Section) :=
                           match l with
                           | [] => Some []
                           | y :: r' =>
                               s ← decode_section y;
                               ss ← all r';
                               Some (s :: ss)
                           end) items
                    | _ => None
                    end
                  else children_of r
              end) props;
      Some (mkSection i t c s ch)
  | _ => None
  end.

Definition decode_CVData (v : jsval) : option CVData :=
  match v with
  | JObj props =>
      match get_prop "sections" props with
      | Some (JArr items) => mkCVData <$> mapM decode_section items
      | _ => None
      end
  | _ => None
  end.

(** Equality of two values, property for property and in order. *)
Fixpoint jsval_eqb (a b : jsval) : bool :=
  match a, b with
  | JNull, JNull => true
  | JBool x, JBool y => Bool.eqb x y
  | JStr x, JStr y => String.eqb x y
  | JArr xs, JArr ys =>
      (fix all (xs ys : list jsval) : bool :=
         match xs, ys with
         | [], [] => true
         | x :: xs', y :: ys' => jsval_eqb x y && all xs' ys'
         | _, _ => false
         end) xs ys
  | JObj ps, JObj qs =>
      (fix all (ps qs : list (string * jsval)) : bool :=
         match ps, qs with
         | [], [] => true
         | (k, x) :: ps', (l, y) :: qs' =>
             String.eqb k l && jsval_eqb x y && all ps' qs'
         | _, _ => false
         end) ps qs
  | _, _ => false
  end.

(** ** The state of the page

    [selectedCVId] is the state of [App.tsx] handed to the editor,
    [cvData] the state of [CVEditor] ([null] is [JNull]; after the load
    effect it holds whatever [JSON.parse] returned), [localStorage] the
    browser's store. *)
Record State : Type := mkState {
  selectedCVId : option string;
  cvData : jsval;
  localStorage : gmap string string
}.

(** Truthiness of a string, as in [if (selectedCVId)] and [if (savedCV)]
    once [null] is ruled out: the empty string is falsy. *)
Definition truthy (s : string) : bool := negb (String.eqb s "").

(** The template literal [`cv_${id}`]. *)
Definition storage_key (cvId : string) : string := String.append "cv_" cvId.

(** ** The two recursive rewrites of [CVEditor.tsx] *)

Module SectionTree.

(** The arrow function mapped over [sections] by [updateSectionRecursive]. *)
Fixpoint updateSectionNode (sectionId : string) (updates : PartialSection)
    (section : Section) {struct section} : Section :=
  match section with
  | mkSection i t c s ch =>
      if String.eqb i sectionId then
        spread section updates
      else if (0 <? length ch)%nat then
        with_children section (map (updateSectionNode sectionId updates) ch)
      else
        section
  end.

(** [updateSectionRecursive(sections)], for the [sectionId] and [updates]
    of the enclosing [updateSection]. *)
Definition updateSectionRecursive (sectionId : string) (updates : PartialSection)
    (sections : list Section) : list Section :=
  map (updateSectionNode sectionId updates) sections.

(** The [newSection] literal of [addSection]; its [id] is the result of
    [crypto.randomUUID()], an input here. *)
Definition newSection (uuid : string) : Section :=
  mkSection uuid container ""
    (mkStyles "transparent" "10px" "0px" None None None)
    [].

(** The arrow function mapped over [sections] by [addSectionRecursive]. *)
Fixpoint addSectionNode (parentId : string) (newSection : Section)
    (section : Section) {struct section} : Section :=
  match section with
  | mkSection i t c s ch =>
      if String.eqb i parentId then
        with_children section (ch ++ [newSection])
      else if (0 <? length ch)%nat then
        with_children section (map (addSectionNode parentId newSection) ch)
      else
        section
  end.

(** [addSectionRecursive(sections)], for the [parentId] and [newSection]
    of the enclosing [addSection]. *)
Definition addSectionRecursive (parentId : string) (newSection : Section)
    (sections : list Section) : list Section :=
  map (addSectionNode parentId newSection) sections.

End SectionTree.

Import SectionTree.

(** ** The state-changing functions of [CVEditor.tsx] *)

Module Editor.

(** What running an effect or a handler ends in: a new state, an
    exception out of [JSON.parse], or a run that leaves what is modelled
    here (stored text outside the JSON fragment, a [cvData] that is not
    of its declared type). *)
Inductive outcome : Type :=
| Done (st : State)
| Throws
| Not_modelled.

Definition setCVData (v : jsval) (st : State) : State :=
  mkState (selectedCVId st) v (localStorage st).

(** The effect of [CVEditor] that runs when [selectedCVId] changes. *)
Definition loadEffect (st : State) : outcome :=
  match selectedCVId st with
  | Some cvId =>
      if truthy cvId then
        match localStorage st !! storage_key cvId with
        | Some savedCV =>
            if truthy savedCV then
              match JSON.parse savedCV with
              | JSON.Parsed v => Done (setCVData v st)
              | JSON.Throws_SyntaxError => Throws
              | JSON.Not_modelled => Not_modelled
              end
            else Done st
        | None => Done st
        end
      else Done (setCVData JNull st)
  | None => Done (setCVData JNull st)
  end.

(** [saveCVData(data)] *)
Definition saveCVData (data : CVData) (st : State) : State :=
  match selectedCVId st with
  | Some cvId =>
      if truthy cvId then
        mkState (selectedCVId st) (encode_CVData data)
          (<[ storage_key cvId := JSON.stringify (encode_CVData data) ]>
             (localStorage st))
      else st
  | None => st
  end.

(** [!cvData]: [null], [false] and the empty string are falsy. *)
Definition falsy (v : jsval) : bool :=
  match v with
  | JNull => true
  | JBool b => negb b
  | JStr s => String.eqb s ""
  | JArr _ | JObj _ => false
  end.

(** [cvData] at its declared type [CVData]: the document whose object it
    is, property for property.  A value that is no such object is outside
    the types the two handlers below are written against. *)
Definition as_CVData (v : jsval) : option CVData :=
  match decode_CVData v with
  | Some data => if jsval_eqb (encode_CVData data) v then Some data else None
  | None => None
  end.

(** [updateSection(sectionId, updates)] *)
Definition updateSection (sectionId : string) (updates : PartialSection)
    (st : State) : outcome :=
  if falsy (cvData st) then Done st
  else
    match as_CVData (cvData st) with
    | Some data =>
        let updatedData :=
          mkCVData (updateSectionRecursive sectionId updates (sections data)) in
        Done (saveCVData updatedData st)
    | None => Not_modelled
    end.

(** The layout hint of [addSection]; the function never reads it. *)
Inductive Direction : Type :=
| horizontal
| vertical.

(** [addSection(parentId, direction)], with [uuid] the result of the
    [crypto.randomUUID()] call for [newSection]. *)
Definition addSection (parentId : string) (direction : Direction)
    (uuid : string) (st : State) : outcome :=
  if falsy (cvData st) then Done st
  else
    match as_CVData (cvData st) with
    | Some data =>
        let updatedData :=
          mkCVData (addSectionRecursive parentId (newSection uuid) (sections data)) in
        Done (saveCVData updatedData st)
    | None => Not_modelled
    end.

End Editor.

(** ** Reading a forest *)

(** All identifiers of a node and of a forest, in document order. *)
Fixpoint ids_of (section : Section) : list string :=
  match section with
  | mkSection i _ _ _ ch => i :: flat_map ids_of ch
  end.

Definition all_ids (forest : list Section) : list string :=
  flat_map ids_of forest.

(** Globally unique identifiers. *)
Definition unique_ids (forest : list Section) : Prop :=
  NoDup (all_ids forest).

(** The node at a position: [i :: q] is child [q] of the [i]-th tree. *)
Fixpoint get_path (p : list nat) (forest : list Section) : option Section :=
  match p with
  | [] => None
  | i :: q =>
      match forest !! i with
      | None => None
      | Some s =>
          match q with
          | [] => Some s
          | _ :: _ => get_path q (children s)
          end
      end
  end.

(** No node strictly above position [q] carries [target]: the rewrites
    stop at the outermost node that does. *)
Definition no_ancestor_hit (target : string) (q : list nat)
    (forest : list Section) : Prop :=
  forall q1 q2 B, q = q1 ++ q2 -> q2 <> [] ->
    get_path q1 forest = Some B -> id B <> target.

(** A concrete forest used by the examples below: a root ["r"] with the
    children ["a"] (content ["x"]) and ["b"], and a second root ["s"]. *)
Definition plain (i c : string) (ch : list Section) : Section :=
  mkSection i container c (mkStyles "transparent" "10px" "0px" None None None) ch.

Definition forest0 : list Section :=
  [ plain "r" "" [ plain "a" "x" []; plain "b" "" [] ]; plain "s" "" [] ].

(** No node on position [q], the node at [q] included, carries [target]. *)
Definition no_hit_along (target : string) (q : list nat)
    (forest : list Section) : Prop :=
  forall q1 q2 B, q = q1 ++ q2 ->
    get_path q1 forest = Some B -> id B <> target.

(** ** [createNewCV] of [CVSidebar.tsx] *)

Module Sidebar.

(** The [initialCVData] literal; [uuid] is the result of the
    [crypto.randomUUID()] call inside it. *)
Definition initialCVData (uuid : string) : CVData :=
  mkCVData
    [ mkSection uuid container ""
        (mkStyles "transparent" "20px" "0px" None None None)
        [] ].

(** [createNewCV]: [cvId] and [rootId] are the two identifiers drawn by
    [crypto.randomUUID()], [registry] is the text [saveCVs] writes under
    ["cvs"] (names and dates, not modelled).  [onSelectCV] selects the
    new CV. *)
Definition createNewCV (cvId rootId registry : string) (st : State) : State :=
  mkState (Some cvId) (cvData st)
    (<[ storage_key cvId := JSON.stringify (encode_CVData (initialCVData rootId)) ]>
       (<[ "cvs" := registry ]> (localStorage st))).

End Sidebar.

Import Sidebar.

(** ** What [CVSection.tsx] reads from a section *)

Module CVSection.

(** [o || d] for an optional string property. *)
Definition or_default (o : option string) (d : string) : string :=
  match o with
  | Some s => if String.eqb s "" then d else s
  | None => d
  end.

(** The [border] of the rendered box, from the initial component state. *)
Definition border (s : Styles) : string :=
  let borderStyle := or_default (borderStyle s) "none" in
  let borderWidth := or_default (borderWidth s) "1px" in
  let borderColor := or_default (borderColor s) "#000000" in
  if String.eqb borderStyle "none" then "none"
  else String.append borderWidth
         (String.append " " (String.append borderStyle (String.append " " borderColor))).

(** The [styles] object built by [handleSaveStyles] from the six fields
    of the dialog. *)
Definition saved_styles (backgroundColor padding margin borderStyle borderWidth
    borderColor : string) : Styles :=
  mkStyles backgroundColor padding margin
    (Some borderStyle) (Some borderWidth) (Some borderColor).

End CVSection.

(** A predicate on every section of a tree. *)
Fixpoint every (P : Section -> bool) (section : Section) : bool :=
  match section with
  | mkSection _ _ _ _ ch => P section && forallb (every P) ch
  end.

(** The styles of a section have no border property. *)
Definition no_border_props (section : Section) : bool :=
  match borderStyle (styles section), borderWidth (styles section),
        borderColor (styles section) with
  | None, None, None => true
  | _, _, _ => false
  end.

(** The forests the editor builds: the forest of the initial document of
    a new CV, then any number of [addSection] rewrites, each one with an
    identifier drawn for the new section that the forest does not hold
    yet. *)
Inductive built : list Section -> Prop :=
| built_new (uuid : string) :
    built (sections (initialCVData uuid))
| built_add (forest : list Section) (parentId uuid : string) :
    built forest -> uuid ∉ all_ids forest ->
    built (addSectionRecursive parentId (newSection uuid) forest).

(** The states of an editing session: a new CV is created and loaded;
    then sections are added, each with an identifier drawn for it that
    the document does not hold yet, and sections are updated with update
    objects that carry neither [id] nor [children], as the three
    handlers of [CVSection.tsx] build them. *)
Inductive reachable : State -> Prop :=
| reach_new (st st' : State) (cvId rootId registry : string) :
    cvId <> "" ->
    Editor.loadEffect (createNewCV cvId rootId registry st) = Editor.Done st' ->
    reachable st'
| reach_add (st st' : State) (parentId uuid : string)
    (direction : Editor.Direction) :
    reachable st ->
    (forall data, Editor.as_CVData (cvData st) = Some data ->
       uuid ∉ all_ids (sections data)) ->
    Editor.addSection parentId direction uuid st = Editor.Done st' ->
    reachable st'
| reach_update (st st' : State) (sectionId : string)
    (updates : PartialSection) :
    reachable st ->
    p_id updates = None -> p_children updates = None ->
    Editor.updateSection sectionId updates st = Editor.Done st' ->
    reachable st'.

(** What is saved is what is shown. *)
Definition in_sync (st : State) : Prop :=
  exists cvId data,
    selectedCVId st = Some cvId /\ cvId <> "" /\
    cvData st = encode_CVData data /\
    unique_ids (sections data) /\
    localStorage st !! storage_key cvId = Some (JSON.stringify (cvData st)).

(** JSON text written with ['] for the double quote. *)
Fixpoint json_text (s : string) : string :=
  match s with
  | EmptyString => EmptyString
  | String c r =>
      String (if Ascii.eqb c "'" then JSON.dquote else c) (json_text r)
  end.

(** A stored record that is JSON but no document: its only section has
    an [id] and nothing else. *)
Definition malformed_text : string := json_text "{'sections':[{'id':'a'}]}".

Definition malformed_value : jsval :=
  JObj [ ("sections", JArr [ JObj [ ("id", JStr "a") ] ]) ].

(** ** The sidebar and the page around the editor

    [CVSidebar.tsx] keeps the list of CVs, [App.tsx] the selection; the
    editor's load effect has [selectedCVId] as its only dependency. *)

Module Registry.

(** [interface CV].  The [Date] of [lastModified] is held as the ISO
    text that [JSON.stringify] writes for it. *)
Record CV : Type := mkCV {
  id : string;
  name : string;
  lastModified : string
}.

(** The object of a [CV], as [saveCVs] stringifies it. *)
Definition encode_CV (cv : CV) : jsval :=
  JObj [ ("id", JStr (id cv));
         ("name", JStr (name cv));
         ("lastModified", JStr (lastModified cv)) ].

(** [JSON.stringify(newCVs)] of [saveCVs]. *)
Definition registry_text (newCVs : list CV) : string :=
  JSON.stringify (JArr (map encode_CV newCVs)).

(** The template literal [`CV ${cvs.length + 1}`]. *)
Definition new_name (cvs : list CV) : string :=
  String.append "CV " (NilEmpty.string_of_uint (Nat.to_uint (length cvs + 1))).

(** The sidebar's list and the rest of the page. *)
Record App : Type := mkApp {
  cvs : list CV;
  page : State
}.

(** [createNewCV] with its list: [cvId] and [rootId] are the two drawn
    identifiers, [now] is [new Date()].  [saveCVs] sets the list and
    writes its text, [onSelectCV] selects the new CV, and the initial
    document is stored. *)
Definition createNewCV (cvId rootId now : string) (app : App) : App :=
  let newCV := mkCV cvId (new_name (cvs app)) now in
  let updatedCVs := cvs app ++ [newCV] in
  mkApp updatedCVs
    (Sidebar.createNewCV cvId rootId (registry_text updatedCVs) (page app)).

(** [onSelectCV(id)], the [setSelectedCVId] of [App.tsx]. *)
Definition onSelectCV (cvId : string) (st : State) : State :=
  mkState (Some cvId) (cvData st) (localStorage st).

(** The editor after a render: its effect runs when [selectedCVId] is
    not the one of the render before. *)
Definition afterRender (before : option string) (st : State) : Editor.outcome :=
  if decide (selectedCVId st = before) then Editor.Done st
  else Editor.loadEffect st.

(** What the user does: the button [New CV] (with the two identifiers
    and the date it draws), a click on the [i]-th card of the list, and
    the two calls a section's menu and dialogs make. *)
Inductive event : Type :=
| NewCV (cvId rootId now : string)
| SelectCV (i : nat)
| AddSection (parentId : string) (direction : Editor.Direction) (uuid : string)
| UpdateSection (sectionId : string) (updates : PartialSection).

(** A page of the list [l] out of an outcome; [None] when the run threw
    or left what is modelled. *)
Definition page_of (l : list CV) (o : Editor.outcome) : option App :=
  match o with
  | Editor.Done st => Some (mkApp l st)
  | Editor.Throws | Editor.Not_modelled => None
  end.

Definition run_event (e : event) (app : App) : option App :=
  match e with
  | NewCV cvId rootId now =>
      let app' := createNewCV cvId rootId now app in
      page_of (cvs app') (afterRender (selectedCVId (page app)) (page app'))
  | SelectCV i =>
      match cvs app !! i with
      | Some cv =>
          page_of (cvs app)
            (afterRender (selectedCVId (page app)) (onSelectCV (id cv) (page app)))
      | None => Some app
      end
  | AddSection parentId direction uuid =>
      page_of (cvs app) (Editor.addSection parentId direction uuid (page app))
  | UpdateSection sectionId updates =>
      page_of (cvs app) (Editor.updateSection sectionId updates (page app))
  end.

(** What is taken for granted of an event: a drawn identifier is not
    empty and not in use, and an update object comes from one of the
    three handlers of [CVSection.tsx], which set neither [id] nor
    [children]. *)
Definition event_ok (app : App) (e : event) : Prop :=
  match e with
  | NewCV cvId rootId now => cvId <> "" /\ cvId ∉ map id (cvs app)
  | SelectCV i => True
  | AddSection parentId direction uuid =>
      forall data, Editor.as_CVData (cvData (page app)) = Some data ->
        uuid ∉ all_ids (sections data)
  | UpdateSection sectionId updates =>
      p_id updates = None /\ p_children updates = None
  end.

(** A session: the page opens with no registry in the store, an empty
    list, no selection and no document; then events run. *)
Inductive session : App -> Prop :=
| session_start (store : gmap string string) :
    store !! "cvs" = None ->
    session (mkApp [] (mkState None JNull store))
| session_step (app app' : App) (e : event) :
    session app -> event_ok app e -> run_event e app = Some app' ->
    session app'.









End Registry.

(** ** The component of [CVSection.tsx]

    Its state (the [useState] variables), its handlers and what it
    renders.  Left out: [backgroundOpacity], [isHoveredByMouse] and the
    [finalBackgroundColor] computed from them, which are numbers and a
    colour library. *)

Module SectionComponent.

Record Local : Type := mkLocal {
  showTextDialog : bool;
  showStyleDialog : bool;
  textContent : string;
  backgroundColor : string;
  padding : string;
  margin : string;
  borderStyle : string;
  borderWidth : string;
  borderColor : string
}.

(** [s || d] for a string. *)
Definition or_else (s d : string) : string :=
  if String.eqb s "" then d else s.

(** The initial state, from the [useState] calls. *)
Definition mount (section : Section) : Local :=
  match styles section with
  | mkStyles bg pad mar bs bw bc =>
      mkLocal false false (content section)
        (or_else bg "#000000FF") pad mar
        (CVSection.or_default bs "none")
        (CVSection.or_default bw "1px")
        (CVSection.or_default bc "#000000")
  end.

(** A call of [onUpdate]: the identifier and the update object. *)
Definition call : Type := (string * PartialSection)%type.

Definition handleInsertText (section : Section) (l : Local) : Local :=
  mkLocal true (showStyleDialog l) (content section)
    (backgroundColor l) (padding l) (margin l)
    (borderStyle l) (borderWidth l) (borderColor l).

(** The [onChange] of the text area. *)
Definition setTextContent (value : string) (l : Local) : Local :=
  mkLocal (showTextDialog l) (showStyleDialog l) value
    (backgroundColor l) (padding l) (margin l)
    (borderStyle l) (borderWidth l) (borderColor l).

Definition handleSaveText (section : Section) (l : Local) : call * Local :=
  ((id section, content_and_type (textContent l) text),
   mkLocal false (showStyleDialog l) (textContent l)
     (backgroundColor l) (padding l) (margin l)
     (borderStyle l) (borderWidth l) (borderColor l)).

Definition handleStyleChange (section : Section) (l : Local) : Local :=
  match styles section with
  | mkStyles bg pad mar bs bw bc =>
      mkLocal (showTextDialog l) true (textContent l)
        bg pad mar
        (CVSection.or_default bs "none")
        (CVSection.or_default bw "1px")
        (CVSection.or_default bc "#000000")
  end.

(** The [onChange] of the inputs of the style dialog, all at once. *)
Definition setStyleFields (bg pad mar bs bw bc : string) (l : Local) : Local :=
  mkLocal (showTextDialog l) (showStyleDialog l) (textContent l)
    bg pad mar bs bw bc.

Definition handleSaveStyles (section : Section) (l : Local) : call * Local :=
  ((id section,
    only_styles
      (CVSection.saved_styles (backgroundColor l) (padding l) (margin l)
         (borderStyle l) (borderWidth l) (borderColor l))),
   mkLocal (showTextDialog l) false (textContent l)
     (backgroundColor l) (padding l) (margin l)
     (borderStyle l) (borderWidth l) (borderColor l)).

(** [reader.onload] of [handleFileChange], with the data URL the reader
    hands over. *)
Definition onload (section : Section) (imageUrl : string) : call :=
  (id section, content_and_type imageUrl image).

(** The [border] of the box, from the state. *)
Definition border (l : Local) : string :=
  if String.eqb (borderStyle l) "none" then "none"
  else String.append (borderWidth l)
         (String.append " "
            (String.append (borderStyle l) (String.append " " (borderColor l)))).






(** The style dialog opened and saved as it is: the section after the
    update that [handleSaveStyles] sends. *)
Definition reopen_and_save (section : Section) (l : Local) : Section :=
  spread section
    (snd (fst (handleSaveStyles section (handleStyleChange section l)))).

End SectionComponent.

(** ** The form of the sign-in page ([Auth] of [App.tsx])

    The service behind [supabase.auth] is an input: what it answers to
    the one request the handler may send. *)

Module Auth.

(** The two calls the handler can make. *)
Inductive Request : Type :=
| signInWithPassword (email password : string)
| signUp (email password emailRedirectTo : string).

(** What the awaited call ends in: a [result] with its [error] message,
    if any, and whether [result.data.session] is there, or an
    exception. *)
Inductive Response : Type :=
| Resolved (error : option string) (session : bool)
| Rejected.

Record Toast : Type := mkToast {
  title : string;
  description : string;
  destructive : bool
}.

(** What a run of [handleAuth] did: the request it sent, the toasts it
    showed, where it navigated, and [loading] at its end. *)
Record Run : Type := mkRun {
  sent : option Request;
  toasts : list Toast;
  navigated : option string;
  loading : bool
}.

(** [handleAuth], for the form state [isLogin], [email], [password], the
    [loading] it starts with, [window.location.origin] and the service. *)
Definition handleAuth (isLogin : bool) (email password : string)
    (loading0 : bool) (origin : string) (service : Request -> Response) : Run :=
  if String.eqb email "" || String.eqb password "" then
    mkRun None [ mkToast "Error" "Please fill in all fields" true ] None loading0
  else
    let request :=
      if isLogin then signInWithPassword email password
      else signUp email password (String.append origin "/app") in
    match service request with
    | Resolved (Some message) _ =>
        mkRun (Some request) [ mkToast "Error" message true ] None false
    | Resolved None session =>
        if negb isLogin && negb session then
          mkRun (Some request)
            [ mkToast "Check your email"
                "We've sent you a confirmation link to complete your registration."
                false ]
            None false
        else if session then mkRun (Some request) [] (Some "/app") false
        else mkRun (Some request) [] None false
    | Rejected =>
        mkRun (Some request)
          [ mkToast "Error"
              (String.append "Failed to " (if isLogin then "sign in" else "sign up"))
              true ]
          None false
    end.

End Auth.

(** ** Induction over values *)

Section jsval_induction.
Variable P : jsval -> Prop.
Hypothesis P_null : P JNull.
Hypothesis P_bool : forall b, P (JBool b).
Hypothesis P_str : forall s, P (JStr s).
Hypothesis P_arr : forall items, Forall P items -> P (JArr items).
Hypothesis P_obj : forall props,
  Forall (fun kv => P (snd kv)) props -> P (JObj props).

Fixpoint jsval_ind (v : jsval) : P v :=
  match v with
  | JNull => P_null
  | JBool b => P_bool b
  | JStr s => P_str s
  | JArr items =>
      P_arr items
        ((fix go (l : list jsval) : Forall P l :=
            match l with
            | [] => @List.Forall_nil _ P
            | x :: r => @List.Forall_cons _ P x r (jsval_ind x) (go r)
            end) items)
  | JObj props =>
      P_obj props
        ((fix go (l : list (string * jsval)) : Forall (fun kv => P (snd kv)) l :=
            match l with
            | [] => @List.Forall_nil _ _
            | kv :: r =>
                @List.Forall_cons _ (fun kv => P (snd kv)) kv r
                  (jsval_ind (snd kv)) (go r)
            end) props)
  end.
End jsval_induction.

(** Values as JavaScript has them: no object has a key twice. *)
#[local] Unset Elimination Schemes.

Inductive wf_jsval : jsval -> Prop :=
| wf_null : wf_jsval JNull
| wf_bool b : wf_jsval (JBool b)
| wf_str s : wf_jsval (JStr s)
| wf_arr items : Forall wf_jsval items -> wf_jsval (JArr items)
| wf_obj props :
    NoDup (map fst props) -> Forall (fun kv => wf_jsval (snd kv)) props ->
    wf_jsval (JObj props).

#[local] Set Elimination Schemes.

(** The number of values in a value: a bound on the depth of calls
    [JSON.parse_value] needs for its text. *)
Fixpoint size (v : jsval) : nat :=
  match v with
  | JNull | JBool _ | JStr _ => 1
  | JArr items => S (list_sum (map (fun x => S (size x)) items))
  | JObj props => S (list_sum (map (fun kv => S (size (snd kv))) props))
  end.

(** What a printed value starts with. *)
Definition starts_value (c : ascii) : bool :=
  negb (JSON.is_ws c) && negb (Ascii.eqb c "]") && negb (Ascii.eqb c "}").

(** Parsing the text of [x], with any text behind it, gives [x] back. *)
Definition roundtrips (x : jsval) : Prop :=
  forall fuel rest, size x <= fuel ->
    JSON.parse_value fuel (JSON.stringify x +:+ rest) = Ok x rest.

(** ** Induction over sections *)

Section Section_induction.
Variable P : Section -> Prop.
Hypothesis P_node : forall i t c s ch,
  Forall P ch -> P (mkSection i t c s ch).

Fixpoint Section_ind (section : Section) : P section :=
  match section with
  | mkSection i t c s ch =>
      P_node i t c s ch
        ((fix go (l : list Section) : Forall P l :=
            match l with
            | [] => @List.Forall_nil _ P
            | x :: r => @List.Forall_cons _ P x r (Section_ind x) (go r)
            end) ch)
  end.
End Section_induction.

(** ** Membership in [all_ids] *)

Lemma all_ids_cons section forest :
  all_ids (section :: forest) = ids_of section ++ all_ids forest.
Proof. reflexivity. Qed.

Lemma all_ids_app f g : all_ids (f ++ g) = all_ids f ++ all_ids g.
Proof. unfold all_ids. apply flat_map_app. Qed.

Lemma ids_of_eq section :
  ids_of section = id section :: all_ids (children section).
Proof. now destruct section. Qed.

(** ** No-op on a miss *)

Lemma updateSectionNode_miss sectionId updates section :
  sectionId ∉ ids_of section ->
  updateSectionNode sectionId updates section = section.
Proof.
  induction section as [i t c s ch IH] using Section_ind.
  intros Hmiss. rewrite ids_of_eq in Hmiss. simpl in *.
  apply not_elem_of_cons in Hmiss as [Hne Hch].
  destruct (String.eqb_spec i sectionId) as [->|_]; [done|].
  destruct (0 <? length ch)%nat; [|reflexivity].
  unfold with_children. simpl. f_equal.
  induction IH as [|x r Hx _ IHr]; simpl; [reflexivity|].
  rewrite all_ids_cons in Hch. apply not_elem_of_app in Hch as [H1 H2].
  now rewrite Hx, IHr.
Qed.

Lemma updateSectionRecursive_miss sectionId updates forest :
  sectionId ∉ all_ids forest ->
  updateSectionRecursive sectionId updates forest = forest.
Proof.
  unfold updateSectionRecursive.
  induction forest as [|x r IH]; [reflexivity|].
  rewrite all_ids_cons. intros [H1 H2]%not_elem_of_app.
  cbn [map]. now rewrite updateSectionNode_miss, IH.
Qed.

Lemma addSectionNode_miss parentId n section :
  parentId ∉ ids_of section ->
  addSectionNode parentId n section = section.
Proof.
  induction section as [i t c s ch IH] using Section_ind.
  intros Hmiss. rewrite ids_of_eq in Hmiss. simpl in *.
  apply not_elem_of_cons in Hmiss as [Hne Hch].
  destruct (String.eqb_spec i parentId) as [->|_]; [done|].
  destruct (0 <? length ch)%nat; [|reflexivity].
  unfold with_children. simpl. f_equal.
  induction IH as [|x r Hx _ IHr]; simpl; [reflexivity|].
  rewrite all_ids_cons in Hch. apply not_elem_of_app in Hch as [H1 H2].
  now rewrite Hx, IHr.
Qed.

Lemma addSectionRecursive_miss parentId n forest :
  parentId ∉ all_ids forest ->
  addSectionRecursive parentId n forest = forest.
Proof.
  unfold addSectionRecursive.
  induction forest as [|x r IH]; [reflexivity|].
  rewrite all_ids_cons. intros [H1 H2]%not_elem_of_app.
  cbn [map]. now rewrite addSectionNode_miss, IH.
Qed.

(** ** Positions *)

Lemma get_path_one i forest : get_path [i] forest = forest !! i.
Proof. simpl. now destruct (forest !! i). Qed.

Lemma get_path_cons i j r forest :
  get_path (i :: j :: r) forest =
  forest !! i ≫= fun s => get_path (j :: r) (children s).
Proof. simpl. now destruct (forest !! i). Qed.

Lemma get_path_nil forest : get_path [] forest = None.
Proof. reflexivity. Qed.

Lemma get_path_empty p : get_path p [] = None.
Proof. now destruct p. Qed.

(** Going down [q] and then down [r] is going down [q ++ r]. *)
Lemma get_path_app q r forest B :
  get_path q forest = Some B -> r <> [] ->
  get_path (q ++ r) forest = get_path r (children B).
Proof.
  revert forest. induction q as [|i q IH]; intros forest Hq Hr; [done|].
  destruct q as [|j q].
  - rewrite get_path_one in Hq. destruct r as [|k r]; [done|].
    change ([i] ++ k :: r) with (i :: k :: r).
    rewrite get_path_cons, Hq. reflexivity.
  - rewrite get_path_cons in Hq.
    change ((i :: j :: q) ++ r) with (i :: (j :: q) ++ r).
    change ((j :: q) ++ r) with (j :: q ++ r).
    rewrite get_path_cons.
    destruct (forest !! i) as [s|]; [|done]. simpl in *.
    now apply IH.
Qed.

(** A node that is reached has its identifier in [all_ids]. *)
Lemma elem_of_all_ids_lookup i forest s x :
  forest !! i = Some s -> x ∈ ids_of s -> x ∈ all_ids forest.
Proof.
  intros Hs Hx. rewrite <- (take_drop_middle forest i s Hs).
  rewrite all_ids_app, all_ids_cons. set_solver.
Qed.

Lemma get_path_ids q forest B :
  get_path q forest = Some B -> id B ∈ all_ids forest.
Proof.
  revert forest. induction q as [|i q IH]; intros forest Hq; [done|].
  destruct q as [|j q].
  - rewrite get_path_one in Hq.
    apply (elem_of_all_ids_lookup i forest B); [done|].
    rewrite ids_of_eq. set_solver.
  - rewrite get_path_cons in Hq.
    destruct (forest !! i) as [s|] eqn:Hs; [|done]. simpl in Hq.
    apply (elem_of_all_ids_lookup i forest s); [done|].
    rewrite ids_of_eq. apply elem_of_cons. right. now apply IH.
Qed.


Lemma no_ancestor_hit_one target i forest : no_ancestor_hit target [i] forest.
Proof.
  intros q1 q2 B E Hq2 Hq1. destruct q1 as [|a q1]; [done|].
  destruct q1; destruct q2; simpl in E; congruence.
Qed.

Lemma no_ancestor_hit_cons target i j r forest s :
  forest !! i = Some s -> id s <> target ->
  no_ancestor_hit target (j :: r) (children s) ->
  no_ancestor_hit target (i :: j :: r) forest.
Proof.
  intros Hs Hne Hrec q1 q2 B E Hq2 Hq1.
  destruct q1 as [|a q1]; [done|]. injection E as -> E.
  destruct q1 as [|b q1].
  - rewrite get_path_one in Hq1. congruence.
  - rewrite get_path_cons, Hs in Hq1. simpl in Hq1.
    now apply (Hrec (b :: q1) q2 B).
Qed.

Lemma no_ancestor_hit_inv target i j r forest s :
  forest !! i = Some s ->
  no_ancestor_hit target (i :: j :: r) forest ->
  id s <> target /\ no_ancestor_hit target (j :: r) (children s).
Proof.
  intros Hs H. split.
  - apply (H [i] (j :: r) s); [done|done|]. now rewrite get_path_one.
  - intros q1 q2 B E Hq2 Hq1. destruct q1 as [|a q1]; [done|].
    apply (H (i :: a :: q1) q2 B); [|done|].
    + simpl. now rewrite E.
    + now rewrite get_path_cons, Hs.
Qed.

Lemma get_path_inv i q forest A :
  get_path (i :: q) forest = Some A ->
  exists s, forest !! i = Some s /\
    ((q = [] /\ A = s) \/ (q <> [] /\ get_path q (children s) = Some A)).
Proof.
  intros H. destruct q as [|j q].
  - rewrite get_path_one in H. exists A. auto.
  - rewrite get_path_cons in H. destruct (forest !! i) as [s|]; [|done].
    exists s. split; [done|]. right. split; [done|]. exact H.
Qed.

Lemma get_path_ids_of i q forest A s :
  forest !! i = Some s -> get_path (i :: q) forest = Some A ->
  id A ∈ ids_of s.
Proof.
  intros Hs H. apply get_path_inv in H as (s' & Hs' & [[-> ->]|[Hq H]]).
  - rewrite Hs in Hs'. injection Hs' as ->. rewrite ids_of_eq. set_solver.
  - rewrite Hs in Hs'. injection Hs' as ->. rewrite ids_of_eq.
    apply elem_of_cons. right. now apply (get_path_ids q).
Qed.

(** ** Unique identifiers *)

Lemma unique_ids_lookup forest i s :
  unique_ids forest -> forest !! i = Some s -> NoDup (ids_of s).
Proof.
  unfold unique_ids. intros Hu Hs.
  rewrite <- (take_drop_middle forest i s Hs) in Hu.
  rewrite all_ids_app, all_ids_cons in Hu.
  apply NoDup_app in Hu as (_ & _ & Hu). now apply NoDup_app in Hu as (Hu & _).
Qed.

Lemma unique_ids_children s :
  NoDup (ids_of s) -> (id s ∉ all_ids (children s)) /\ unique_ids (children s).
Proof. rewrite ids_of_eq. intros H. now apply NoDup_cons in H. Qed.

Lemma unique_ids_same_tree forest i j s s' x :
  unique_ids forest -> forest !! i = Some s -> forest !! j = Some s' ->
  x ∈ ids_of s -> x ∈ ids_of s' -> i = j.
Proof.
  unfold unique_ids. revert i j.
  induction forest as [|a r IH]; intros i j Hu Hi Hj Hx Hx'; [done|].
  rewrite all_ids_cons in Hu. apply NoDup_app in Hu as (_ & Hdis & Hr).
  destruct i as [|i], j as [|j]; simpl in Hi, Hj.
  - reflexivity.
  - injection Hi as ->. exfalso. apply (Hdis x Hx).
    now apply (elem_of_all_ids_lookup j r s').
  - injection Hj as ->. exfalso. apply (Hdis x Hx').
    now apply (elem_of_all_ids_lookup i r s).
  - f_equal. now apply IH.
Qed.

(** With unique identifiers a node is determined by its identifier. *)
Lemma unique_ids_path forest p q A B :
  unique_ids forest ->
  get_path p forest = Some A -> get_path q forest = Some B ->
  id A = id B -> p = q.
Proof.
  revert forest q. induction p as [|i p IH]; intros forest q Hu HA HB E; [done|].
  destruct q as [|j q]; [done|].
  pose proof HA as HA'. pose proof HB as HB'.
  apply get_path_inv in HA' as (s & Hs & HA').
  apply get_path_inv in HB' as (s' & Hs' & HB').
  assert (i = j) as <-.
  { apply (unique_ids_same_tree forest i j s s' (id A)); try done.
    - now apply (get_path_ids_of i p forest).
    - rewrite E. now apply (get_path_ids_of j q forest). }
  rewrite Hs in Hs'. injection Hs' as <-.
  pose proof (unique_ids_lookup _ _ _ Hu Hs) as Hnd.
  apply unique_ids_children in Hnd as [Hroot Hch].
  destruct HA' as [[-> ->]|[Hp HA']], HB' as [[-> ->]|[Hq HB']].
  - reflexivity.
  - exfalso. apply Hroot. rewrite E. now apply (get_path_ids q).
  - exfalso. apply Hroot. rewrite <- E. now apply (get_path_ids p).
  - f_equal. now apply (IH (children s)).
Qed.

Lemma unique_ids_no_ancestor_hit forest p A :
  unique_ids forest -> get_path p forest = Some A ->
  no_ancestor_hit (id A) p forest.
Proof.
  intros Hu HA q1 q2 B E Hq2 HB Hid.
  assert (q1 = p) as -> by (symmetry in Hid; eapply unique_ids_path; eauto).
  rewrite <- (app_nil_r p) in E at 1. apply app_inv_head in E. congruence.
Qed.

(** Positions in the first tree and in the rest of a forest. *)
Lemma get_path_head q x r : get_path (0 :: q) (x :: r) = get_path (0 :: q) [x].
Proof. now destruct q. Qed.

Lemma get_path_tail j q x r : get_path (S j :: q) (x :: r) = get_path (j :: q) r.
Proof. now destruct q. Qed.

Lemma no_ancestor_hit_ext target i i' q forest forest' :
  (forall q1, get_path (i :: q1) forest = get_path (i' :: q1) forest') ->
  no_ancestor_hit target (i' :: q) forest' ->
  no_ancestor_hit target (i :: q) forest.
Proof.
  intros Hext H q1 q2 B E Hq2 HB. destruct q1 as [|a q1]; [done|].
  injection E as -> E.
  apply (H (i' :: q1) q2 B); [now rewrite E|done|now rewrite <- Hext].
Qed.

(** An identifier that occurs is carried by a node without an ancestor
    carrying it. *)
Lemma elem_of_all_ids_forest target (P := fun s => target ∈ ids_of s ->
    exists q n, get_path (0 :: q) [s] = Some n /\ id n = target /\
      no_ancestor_hit target (0 :: q) [s]) forest :
  Forall P forest -> target ∈ all_ids forest ->
  exists p n, get_path p forest = Some n /\ id n = target /\
    no_ancestor_hit target p forest.
Proof.
  induction 1 as [|x r Hx _ IHr]; intros H; [now apply elem_of_nil in H|].
  rewrite all_ids_cons in H. apply elem_of_app in H as [H|H].
  - destruct (Hx H) as (q & n & Hq & Hn & Hno).
    exists (0 :: q), n. split; [now rewrite get_path_head|]. split; [done|].
    apply (no_ancestor_hit_ext _ _ 0 _ _ [x]); [|done].
    intros q1. apply get_path_head.
  - destruct (IHr H) as (p & n & Hp & Hn & Hno).
    destruct p as [|j p]; [done|].
    exists (S j :: p), n. split; [now rewrite get_path_tail|]. split; [done|].
    apply (no_ancestor_hit_ext _ _ j _ _ r); [|done].
    intros q1. apply get_path_tail.
Qed.

Lemma elem_of_ids_of_path target s :
  target ∈ ids_of s ->
  exists q n, get_path (0 :: q) [s] = Some n /\ id n = target /\
    no_ancestor_hit target (0 :: q) [s].
Proof.
  induction s as [i t c st ch IH] using Section_ind. intros H.
  destruct (decide (i = target)) as [->|Hne].
  - exists [], (mkSection target t c st ch). split; [done|]. split; [done|].
    apply no_ancestor_hit_one.
  - rewrite ids_of_eq in H. apply elem_of_cons in H as [H|H]; [done|].
    destruct (elem_of_all_ids_forest target ch IH H) as (p & n & Hp & Hn & Hno).
    destruct p as [|j p]; [done|].
    exists (j :: p), n. split; [now rewrite get_path_cons|]. split; [done|].
    now apply (no_ancestor_hit_cons _ _ _ _ _ (mkSection i t c st ch)).
Qed.

Lemma elem_of_all_ids_path target forest :
  target ∈ all_ids forest ->
  exists p n, get_path p forest = Some n /\ id n = target /\
    no_ancestor_hit target p forest.
Proof.
  apply elem_of_all_ids_forest, Forall_forall.
  intros s _. apply elem_of_ids_of_path.
Qed.

(** ** The shape shared by the two rewrites

    Both arrow functions test the identifier, act on a hit without going
    into the subtree of the hit, and otherwise rebuild the node over its
    rewritten children. *)

Section Rewrite.
Variable target : string.
Variable hit : Section -> Section.
Variable f : Section -> Section.
Hypothesis f_eq : forall s,
  f s = if String.eqb (id s) target then hit s
        else if (0 <? length (children s))%nat
             then with_children s (map f (children s))
             else s.

Lemma rewrite_hit s : id s = target -> f s = hit s.
Proof. intros E. rewrite f_eq. now apply String.eqb_eq in E as ->. Qed.

Lemma rewrite_pass s :
  id s <> target -> f s = with_children s (map f (children s)).
Proof.
  intros E. rewrite f_eq. apply String.eqb_neq in E as ->.
  destruct s as [i t c st ch]. destruct ch; reflexivity.
Qed.

(** A node without a hit above it is rewritten in place. *)
Lemma rewrite_get_path q forest B :
  get_path q forest = Some B -> no_ancestor_hit target q forest ->
  get_path q (map f forest) = Some (f B).
Proof.
  revert forest. induction q as [|i q IH]; intros forest HB Hno; [done|].
  destruct q as [|j q].
  - rewrite get_path_one in *. now rewrite list_lookup_fmap, HB.
  - rewrite get_path_cons in *. rewrite list_lookup_fmap.
    destruct (forest !! i) as [s|] eqn:Hs; [|done]. simpl in *.
    apply (no_ancestor_hit_inv _ _ _ _ _ _ Hs) in Hno as [Hne Hno].
    rewrite (rewrite_pass s Hne). simpl. now apply IH.
Qed.

(** Below a hit the rewrite does not go. *)
Lemma rewrite_below_hit p r forest A :
  get_path p forest = Some A -> id A = target ->
  no_ancestor_hit target p forest -> r <> [] ->
  get_path (p ++ r) (map f forest) = get_path r (children (hit A)).
Proof.
  intros HA E Hno Hr.
  rewrite (get_path_app p r (map f forest) (f A)); [|now apply rewrite_get_path|done].
  now rewrite rewrite_hit.
Qed.

(** The node's own fields, off a hit. *)
Lemma rewrite_pass_fields s :
  id s <> target ->
  id (f s) = id s /\ type (f s) = type s /\ content (f s) = content s /\
  styles (f s) = styles s /\ length (children (f s)) = length (children s).
Proof.
  intros E. rewrite (rewrite_pass s E). simpl. now rewrite length_map.
Qed.
Lemma no_hit_along_inv i j r forest s :
  forest !! i = Some s -> no_hit_along target (i :: j :: r) forest ->
  id s <> target /\ no_hit_along target (j :: r) (children s).
Proof.
  intros Hs H. split.
  - apply (H [i] (j :: r) s); [done|]. now rewrite get_path_one.
  - intros q1 q2 B E HB. destruct q1 as [|a q1]; [done|].
    apply (H (i :: a :: q1) q2 B); [simpl; now rewrite E|].
    now rewrite get_path_cons, Hs.
Qed.

(** A position that leads nowhere, with no hit on the way, still leads
    nowhere. *)
Lemma rewrite_get_path_none q forest :
  get_path q forest = None -> no_hit_along target q forest ->
  get_path q (map f forest) = None.
Proof.
  revert forest. induction q as [|i q IH]; intros forest HB Hno; [done|].
  destruct q as [|j q].
  - rewrite get_path_one in *. now rewrite list_lookup_fmap, HB.
  - rewrite get_path_cons in *. rewrite list_lookup_fmap.
    destruct (forest !! i) as [s|] eqn:Hs; [|done]. simpl in *.
    apply (no_hit_along_inv _ _ _ _ _ Hs) in Hno as [Hne Hno].
    rewrite (rewrite_pass s Hne). simpl. now apply IH.
Qed.
End Rewrite.

Lemma updateSectionNode_eq sectionId updates s :
  updateSectionNode sectionId updates s =
  if String.eqb (id s) sectionId then spread s updates
  else if (0 <? length (children s))%nat
       then with_children s (map (updateSectionNode sectionId updates) (children s))
       else s.
Proof. now destruct s. Qed.

Lemma addSectionNode_eq parentId n s :
  addSectionNode parentId n s =
  if String.eqb (id s) parentId then with_children s (children s ++ [n])
  else if (0 <? length (children s))%nat
       then with_children s (map (addSectionNode parentId n) (children s))
       else s.
Proof. now destruct s. Qed.

(** Positions that lead nowhere. *)
Lemma get_path_none_map (f : Section -> Section) q forest :
  (forall s, s ∈ forest -> forall j r,
     get_path (j :: r) (children s) = None ->
     get_path (j :: r) (children (f s)) = None) ->
  get_path q forest = None -> get_path q (map f forest) = None.
Proof.
  intros Hf. destruct q as [|i q]; [done|]. destruct q as [|j q].
  - rewrite !get_path_one, list_lookup_fmap. now intros ->.
  - rewrite !get_path_cons, list_lookup_fmap.
    destruct (forest !! i) as [s|] eqn:Hs; [|done].
    apply list_elem_of_lookup_2 in Hs. cbn [mbind option_bind fmap option_fmap option_map].
    now apply Hf.
Qed.

Lemma updateSectionNode_none sectionId updates :
  p_children updates = None ->
  forall s j r, get_path (j :: r) (children s) = None ->
    get_path (j :: r) (children (updateSectionNode sectionId updates s)) = None.
Proof.
  intros Hu. induction s as [i t c st ch IH] using Section_ind.
  intros j r H. rewrite updateSectionNode_eq. cbn [id children] in *.
  destruct (String.eqb i sectionId).
  - unfold spread. cbn [children]. now rewrite Hu.
  - destruct ch as [|x ch]; [done|].
    change (children (if (0 <? length (x :: ch))%nat then _ else _))
      with (map (updateSectionNode sectionId updates) (x :: ch)).
    apply get_path_none_map; [|done].
    rewrite Forall_forall in IH. exact IH.
Qed.

Lemma updateSectionRecursive_none sectionId updates q forest :
  p_children updates = None ->
  get_path q forest = None ->
  get_path q (updateSectionRecursive sectionId updates forest) = None.
Proof.
  intros Hu. apply get_path_none_map. intros s _. now apply updateSectionNode_none.
Qed.

(** ** Theorems on [updateSectionRecursive] and [addSectionRecursive] *)


Lemma forest0_unique : unique_ids forest0.
Proof. unfold unique_ids. apply (bool_decide_unpack _). vm_compute. exact I. Defined.

(** C4. A target identifier that no node of the forest carries makes both
    rewrites return the forest itself: neither [updateSectionRecursive]
    nor [addSectionRecursive] fails, and neither changes anything. *)
Theorem miss_is_noop (forest : list Section) (target : string)
    (updates : PartialSection) (n : Section) :
  target ∉ all_ids forest ->
  updateSectionRecursive target updates forest = forest /\
  addSectionRecursive target n forest = forest.
Proof.
  intros H. split.
  - now apply updateSectionRecursive_miss.
  - now apply addSectionRecursive_miss.
Qed.

Lemma miss_is_noop_witness :
  updateSectionRecursive "zz" (only_content "y") forest0 = forest0 /\
  addSectionRecursive "zz" (newSection "n") forest0 = forest0.
Proof.
  apply (miss_is_noop forest0 "zz" (only_content "y") (newSection "n")).
  apply (bool_decide_unpack _). vm_compute. exact I.
Defined.

Lemma prefix_of_split (p q : list nat) :
  q <> p -> p `prefix_of` q -> exists r, r <> [] /\ q = p ++ r.
Proof.
  intros Hne [r ->]. exists r. split; [|done].
  intros ->. now rewrite app_nil_r in Hne.
Qed.

(** With unique identifiers, a node that carries the target in its subtree
    is the target or one of its ancestors. *)
Lemma unique_ids_subtree forest p q A B :
  unique_ids forest ->
  get_path p forest = Some A -> get_path q forest = Some B ->
  id A ∈ ids_of B -> q `prefix_of` p.
Proof.
  intros Hu HA HB Hin.
  destruct (elem_of_ids_of_path _ _ Hin) as (r & n & Hr & Hn & _).
  destruct r as [|j r].
  - rewrite get_path_one in Hr. injection Hr as <-.
    symmetry in Hn. now rewrite (unique_ids_path forest p q A B).
  - rewrite get_path_cons in Hr. simpl in Hr.
    exists (j :: r). symmetry. apply (unique_ids_path forest _ _ n A); try done.
    now rewrite (get_path_app q (j :: r) forest B).
Qed.

(** With unique identifiers, a position that does not pass through the
    target has no hit above it. *)
Lemma unique_ids_off_path forest p q A :
  unique_ids forest -> get_path p forest = Some A ->
  ~ (p `prefix_of` q /\ q <> p) ->
  no_ancestor_hit (id A) q forest.
Proof.
  intros Hu HA Hoff q1 q2 B E Hq2 HB Hid. apply Hoff.
  assert (q1 = p) as -> by (eapply unique_ids_path; eauto).
  split; [now exists q2|].
  intros Hqp. rewrite <- (app_nil_r p) in Hqp. rewrite E in Hqp.
  apply app_inv_head in Hqp. congruence.
Qed.

(** C1, as the code has it.  In a forest with unique identifiers, updating
    the node [A] at position [p] with [{content: y}] gives a forest of the
    same shape in which the node at [p] is [A] with content [y] and
    nothing else changed; every other node keeps its id, type, content,
    styles and number of children; and every node that is not an ancestor
    of [A] (siblings among them) is equal to its original, subtree
    included.  An ancestor is rebuilt over the rewritten child, so it is
    not equal to its original as a whole. *)
Theorem targeted_update (forest : list Section) (p : list nat) (A : Section)
    (y : string) :
  unique_ids forest -> get_path p forest = Some A ->
  let forest' := updateSectionRecursive (id A) (only_content y) forest in
  get_path p forest' = Some (with_content A y) /\
  (forall q B, q <> p -> get_path q forest = Some B ->
     exists B', get_path q forest' = Some B' /\
       id B' = id B /\ type B' = type B /\ content B' = content B /\
       styles B' = styles B /\ length (children B') = length (children B) /\
       (~ q `prefix_of` p -> B' = B)) /\
  (forall q, get_path q forest = None -> get_path q forest' = None).
Proof.
  intros Hu HA forest'. subst forest'. unfold updateSectionRecursive.
  pose proof (updateSectionNode_eq (id A) (only_content y)) as Heq.
  split; [|split].
  - rewrite (rewrite_get_path _ _ _ Heq p forest A HA).
    + rewrite (rewrite_hit _ _ _ Heq); [|done]. now destruct A.
    + now apply unique_ids_no_ancestor_hit.
  - intros q B Hqp HB.
    destruct (decide (p `prefix_of` q)) as [Hpre|Hpre].
    + destruct (prefix_of_split p q Hqp Hpre) as (r & Hr & ->).
      exists B. repeat split; try done.
      rewrite (rewrite_below_hit _ _ _ Heq p r forest A); try done.
      * rewrite <- HB. symmetry. now apply (get_path_app p r forest A).
      * now apply unique_ids_no_ancestor_hit.
    + exists (updateSectionNode (id A) (only_content y) B).
      assert (Hne : id B <> id A).
      { intros E. apply Hqp. now apply (unique_ids_path forest q p B A). }
      destruct (rewrite_pass_fields _ _ _ Heq B Hne) as (H1 & H2 & H3 & H4 & H5).
      repeat split; try done.
      * apply (rewrite_get_path _ _ _ Heq); [done|].
        apply (unique_ids_off_path forest p q A); tauto.
      * intros Hanc. apply updateSectionNode_miss.
        intros Hin. apply Hanc. now apply (unique_ids_subtree forest p q A B).
  - intros q Hq. now apply updateSectionRecursive_none.
Qed.

Lemma targeted_update_witness :
  get_path [0; 0] (updateSectionRecursive "a" (only_content "y") forest0)
  = Some (plain "a" "y" []).
Proof.
  apply (targeted_update forest0 [0; 0] (plain "a" "x" []) "y").
  - exact forest0_unique.
  - reflexivity.
Defined.

(** C1, as the claim words it: every ancestor of [A] would be equal to its
    original.  The root ["r"] above ["a"] is not: its child changed. *)
Lemma targeted_update_ancestor_changes :
  unique_ids forest0 /\
  get_path [0; 0] forest0 = Some (plain "a" "x" []) /\
  get_path [0] forest0
    = Some (plain "r" "" [ plain "a" "x" []; plain "b" "" [] ]) /\
  get_path [0] (updateSectionRecursive "a" (only_content "y") forest0)
    = Some (plain "r" "" [ plain "a" "y" []; plain "b" "" [] ]) /\
  ~ (forall q B, q <> [0; 0] -> get_path q forest0 = Some B ->
       get_path q (updateSectionRecursive "a" (only_content "y") forest0)
       = Some B).
Proof.
  split; [exact forest0_unique|]. repeat split.
  intros H. specialize (H [0] _ ltac:(discriminate) eq_refl). discriminate H.
Qed.

(** ** Identifiers under the rewrites *)

Lemma get_path_app_l q forest extra B :
  get_path q forest = Some B -> get_path q (forest ++ extra) = Some B.
Proof.
  destruct q as [|i q]; [done|]. destruct q as [|j q].
  - rewrite !get_path_one. apply lookup_app_l_Some.
  - rewrite !get_path_cons. destruct (forest !! i) as [s|] eqn:Hs; [|done].
    now rewrite (lookup_app_l_Some _ _ _ _ Hs).
Qed.

Section Keeps.
Variable target : string.
Variable hit : Section -> Section.
Variable f : Section -> Section.
Hypothesis f_eq : forall s,
  f s = if String.eqb (id s) target then hit s
        else if (0 <? length (children s))%nat
             then with_children s (map f (children s))
             else s.
Hypothesis hit_id : forall s, id (hit s) = id s.
Hypothesis hit_children : forall s q B,
  get_path q (children s) = Some B -> get_path q (children (hit s)) = Some B.

Lemma rewrite_id s : id (f s) = id s.
Proof.
  rewrite f_eq. destruct (String.eqb (id s) target); [apply hit_id|].
  now destruct (0 <? length (children s))%nat.
Qed.

(** Every position of the forest still leads to a node with the
    identifier it led to. *)
Lemma rewrite_keeps_ids q forest B :
  get_path q forest = Some B ->
  exists B', get_path q (map f forest) = Some B' /\ id B' = id B.
Proof.
  revert forest. induction q as [|i q IH]; intros forest HB; [done|].
  destruct q as [|j q].
  - rewrite get_path_one in *. exists (f B).
    rewrite list_lookup_fmap, HB. split; [done|apply rewrite_id].
  - rewrite get_path_cons in *. rewrite list_lookup_fmap.
    destruct (forest !! i) as [s|] eqn:Hs; [|done].
    cbn [mbind option_bind fmap option_fmap option_map] in *.
    rewrite f_eq. destruct (String.eqb (id s) target).
    + exists B. split; [now apply hit_children|done].
    + destruct (0 <? length (children s))%nat eqn:Hlen.
      * now apply IH.
      * now exists B.
Qed.
End Keeps.

(** C7, as the code has it.  [addSectionRecursive] never changes the
    identifier found at a position of the forest, and neither does
    [updateSectionRecursive] when the update object carries neither [id]
    nor [children], as in all three calls the editor makes.  An update
    object with an [id] property renames the node it hits. *)
Theorem ids_are_kept (forest : list Section) (target : string)
    (updates : PartialSection) (n : Section) (q : list nat) (B : Section) :
  get_path q forest = Some B ->
  (p_id updates = None -> p_children updates = None ->
   exists B', get_path q (updateSectionRecursive target updates forest) = Some B'
              /\ id B' = id B) /\
  (exists B', get_path q (addSectionRecursive target n forest) = Some B'
              /\ id B' = id B).
Proof.
  intros HB. split.
  - intros Hid Hch.
    apply (rewrite_keeps_ids target (fun s => spread s updates)); try done.
    + apply updateSectionNode_eq.
    + intros s. unfold spread. simpl. now rewrite Hid.
    + intros s q' B' H. unfold spread. simpl. now rewrite Hch.
  - apply (rewrite_keeps_ids target
             (fun s => with_children s (children s ++ [n]))); try done.
    + apply addSectionNode_eq.
    + intros s q' B' H. simpl. now apply get_path_app_l.
Qed.

Lemma ids_are_kept_witness :
  (exists B', get_path [0; 0]
     (updateSectionRecursive "a" (content_and_type "hello" text) forest0) = Some B'
     /\ id B' = "a") /\
  (exists B', get_path [0; 0]
     (addSectionRecursive "a" (newSection "n") forest0) = Some B'
     /\ id B' = "a").
Proof.
  destruct (ids_are_kept forest0 "a" (content_and_type "hello" text)
              (newSection "n") [0; 0] (plain "a" "x" []) eq_refl) as [Hu Ha].
  split; [exact (Hu eq_refl eq_refl)|exact Ha].
Defined.

(** C7, as the claim words it: no update object would change an
    identifier.  [{id: "z"}] does: the node ["a"] is ["z"] afterwards. *)
Lemma update_can_rename :
  get_path [0; 0] forest0 = Some (plain "a" "x" []) /\
  get_path [0; 0] (updateSectionRecursive "a" (only_id "z") forest0)
    = Some (plain "z" "x" []) /\
  ~ (forall updates q B, get_path q forest0 = Some B ->
       exists B', get_path q (updateSectionRecursive "a" updates forest0) = Some B'
                  /\ id B' = id B).
Proof.
  repeat split. intros H.
  destruct (H (only_id "z") [0; 0] _ eq_refl) as (B' & HB' & Hid).
  injection HB' as <-. discriminate Hid.
Qed.

(** C10. An update object may carry [children]: the node that is hit has
    its whole children sequence replaced.  For every forest that holds the
    identifier [i] some node with that identifier is hit, and with unique
    identifiers it is the node with that identifier. *)
Theorem update_replaces_children (forest : list Section) (i : string)
    (c : list Section) :
  i ∈ all_ids forest ->
  let forest' := updateSectionRecursive i (only_children c) forest in
  (exists p n, get_path p forest = Some n /\ id n = i /\
     get_path p forest' = Some (with_children n c)) /\
  (unique_ids forest -> forall p n,
     get_path p forest = Some n -> id n = i ->
     get_path p forest' = Some (with_children n c)).
Proof.
  intros Hin forest'. subst forest'. unfold updateSectionRecursive.
  pose proof (updateSectionNode_eq i (only_children c)) as Heq.
  assert (Hhit : forall p n, get_path p forest = Some n -> id n = i ->
    no_ancestor_hit i p forest ->
    get_path p (map (updateSectionNode i (only_children c)) forest)
    = Some (with_children n c)).
  { intros p n Hp Hn Hno.
    rewrite (rewrite_get_path _ _ _ Heq p forest n Hp Hno).
    now rewrite (rewrite_hit _ _ _ Heq). }
  split.
  - destruct (elem_of_all_ids_path i forest Hin) as (p & n & Hp & Hn & Hno).
    exists p, n. auto.
  - intros Hu p n Hp Hn. apply Hhit; try done.
    rewrite <- Hn. now apply unique_ids_no_ancestor_hit.
Qed.

Lemma update_replaces_children_witness :
  (exists p n, get_path p forest0 = Some n /\ id n = "r" /\
     get_path p (updateSectionRecursive "r" (only_children []) forest0)
     = Some (with_children n [])) /\
  get_path [0] (updateSectionRecursive "r" (only_children []) forest0)
  = Some (plain "r" "" []).
Proof.
  destruct (update_replaces_children forest0 "r" []) as [Hex Huniq].
  - apply (bool_decide_unpack _). vm_compute. exact I.
  - split; [exact Hex|].
    exact (Huniq forest0_unique [0]
             (plain "r" "" [ plain "a" "x" []; plain "b" "" [] ])
             eq_refl eq_refl).
Defined.

(** The subtrees under ["r"] are gone after [{children: []}]. *)
Example update_removes_subtrees :
  all_ids forest0 = ["r"; "a"; "b"; "s"] /\
  all_ids (updateSectionRecursive "r" (only_children []) forest0) = ["r"; "s"].
Proof. split; reflexivity. Qed.

(** ** Appending a child *)

(** The identifiers after [addSectionNode]: those of the new section are
    added once, next to the parent's. *)
Lemma addSectionRecursive_ids_forest parentId n
    (P := fun s => NoDup (ids_of s) -> parentId ∈ ids_of s ->
       ids_of (addSectionNode parentId n s) ≡ₚ ids_of s ++ ids_of n) forest :
  Forall P forest -> unique_ids forest -> parentId ∈ all_ids forest ->
  all_ids (map (addSectionNode parentId n) forest) ≡ₚ all_ids forest ++ ids_of n.
Proof.
  unfold unique_ids. induction 1 as [|x r Hx _ IHr]; intros Hu Hin.
  - now apply elem_of_nil in Hin.
  - cbn [map]. rewrite !all_ids_cons in *.
    apply NoDup_app in Hu as (Hx1 & Hdis & Hr).
    apply elem_of_app in Hin as [Hin|Hin].
    + rewrite (Hx Hx1 Hin).
      fold (addSectionRecursive parentId n r).
      rewrite (addSectionRecursive_miss _ _ _ (Hdis _ Hin)).
      rewrite <- !app_assoc. f_equiv. apply Permutation_app_comm.
    + rewrite addSectionNode_miss by (intros H; now apply (Hdis _ H)).
      rewrite (IHr Hr Hin). now rewrite app_assoc.
Qed.

Lemma addSectionNode_ids parentId n s :
  NoDup (ids_of s) -> parentId ∈ ids_of s ->
  ids_of (addSectionNode parentId n s) ≡ₚ ids_of s ++ ids_of n.
Proof.
  induction s as [i t c st ch IH] using Section_ind. intros Hnd Hin.
  rewrite addSectionNode_eq. cbn [id children].
  destruct (String.eqb_spec i parentId) as [->|Hne].
  - rewrite !ids_of_eq. cbn [id children with_children].
    rewrite all_ids_app. unfold all_ids at 2. simpl.
    now rewrite app_nil_r, <- (ids_of_eq n).
  - apply unique_ids_children in Hnd as [_ Hch]. cbn [children] in Hch.
    rewrite ids_of_eq in Hin. cbn [id children] in Hin.
    apply elem_of_cons in Hin as [Hin|Hin]; [done|].
    destruct ch as [|x ch]; [now apply elem_of_nil in Hin|].
    change (0 <? length (x :: ch))%nat with true. cbv iota.
    rewrite !ids_of_eq. cbn [id children with_children].
    rewrite <- (ids_of_eq n).
    now rewrite (addSectionRecursive_ids_forest parentId n (x :: ch) IH Hch Hin).
Qed.

Lemma addSectionRecursive_ids parentId n forest :
  unique_ids forest -> parentId ∈ all_ids forest ->
  all_ids (addSectionRecursive parentId n forest) ≡ₚ all_ids forest ++ ids_of n.
Proof.
  apply addSectionRecursive_ids_forest, Forall_forall.
  intros s _. apply addSectionNode_ids.
Qed.

(** Unique identifiers survive the insertion of a section whose own
    identifiers are unique and new. *)
Lemma addSectionRecursive_unique parentId n forest :
  unique_ids forest -> NoDup (ids_of n) ->
  (forall x, x ∈ ids_of n -> x ∉ all_ids forest) ->
  unique_ids (addSectionRecursive parentId n forest).
Proof.
  intros Hu Hn Hfresh.
  destruct (decide (parentId ∈ all_ids forest)) as [Hin|Hout].
  - unfold unique_ids. rewrite (addSectionRecursive_ids _ _ _ Hu Hin).
    apply NoDup_app. split; [done|]. split; [|done].
    intros x Hx Hx'. now apply (Hfresh x).
  - now rewrite addSectionRecursive_miss.
Qed.

Lemma unique_ids_no_hit_along forest p q A :
  unique_ids forest -> get_path p forest = Some A ->
  ~ p `prefix_of` q -> no_hit_along (id A) q forest.
Proof.
  intros Hu HA Hoff q1 q2 B E HB Hid. apply Hoff.
  assert (q1 = p) as -> by (eapply unique_ids_path; eauto).
  now exists q2.
Qed.

(** Positions under a node that got one more child. *)
Lemma get_path_snoc_none r ch uuid :
  get_path r ch = None -> r <> [length ch] ->
  get_path r (ch ++ [newSection uuid]) = None.
Proof.
  intros Hnone Hr. destruct r as [|j r]; [done|].
  destruct (lt_eq_lt_dec j (length ch)) as [[Hlt| ->]|Hgt].
  - destruct r as [|k r].
    + rewrite get_path_one in *. now rewrite lookup_app_l.
    + rewrite get_path_cons in *. now rewrite lookup_app_l.
  - destruct r as [|k r]; [done|].
    rewrite get_path_cons, list_lookup_middle by done. simpl.
    now destruct (k :: r).
  - assert ((ch ++ [newSection uuid]) !! j = None) as Hj.
    { apply lookup_ge_None. rewrite length_app. simpl. lia. }
    destruct r as [|k r].
    + now rewrite get_path_one.
    + now rewrite get_path_cons, Hj.
Qed.

(** C2, as the code has it.  In a forest with unique identifiers, with
    the node [P] at position [p], and with an identifier [uuid] drawn for
    the new section that the forest does not hold: after [addSection] the
    node at [p] is [P] with the new section appended behind its children,
    which keep their order; every other node keeps its id, type, content,
    styles and number of children, and is equal to its original unless it
    is an ancestor of [P]; the new section is the only new position; and
    identifiers are unique again. *)
Theorem insert_appends (forest : list Section) (p : list nat) (P : Section)
    (uuid : string) :
  unique_ids forest -> get_path p forest = Some P -> uuid ∉ all_ids forest ->
  let n := newSection uuid in
  let forest' := addSectionRecursive (id P) n forest in
  get_path p forest' = Some (with_children P (children P ++ [n])) /\
  (forall q B, q <> p -> get_path q forest = Some B ->
     exists B', get_path q forest' = Some B' /\
       id B' = id B /\ type B' = type B /\ content B' = content B /\
       styles B' = styles B /\ length (children B') = length (children B) /\
       (~ q `prefix_of` p -> B' = B)) /\
  get_path (p ++ [length (children P)]) forest' = Some n /\
  (forall q, get_path q forest = None -> q <> p ++ [length (children P)] ->
     get_path q forest' = None) /\
  unique_ids forest'.
Proof.
  intros Hu HP Hfresh n forest'. subst forest'. unfold addSectionRecursive.
  pose proof (addSectionNode_eq (id P) n) as Heq.
  pose proof (unique_ids_no_ancestor_hit forest p P Hu HP) as Hno.
  split; [|split; [|split; [|split]]].
  - rewrite (rewrite_get_path _ _ _ Heq p forest P HP Hno).
    now rewrite (rewrite_hit _ _ _ Heq).
  - intros q B Hqp HB.
    destruct (decide (p `prefix_of` q)) as [Hpre|Hpre].
    + destruct (prefix_of_split p q Hqp Hpre) as (r & Hr & ->).
      exists B. repeat split; try done.
      rewrite (rewrite_below_hit _ _ _ Heq p r forest P); try done.
      apply get_path_app_l. rewrite <- HB. symmetry.
      now apply (get_path_app p r forest P).
    + exists (addSectionNode (id P) n B).
      assert (Hne : id B <> id P).
      { intros E. apply Hqp. now apply (unique_ids_path forest q p B P). }
      destruct (rewrite_pass_fields _ _ _ Heq B Hne) as (H1 & H2 & H3 & H4 & H5).
      repeat split; try done.
      * apply (rewrite_get_path _ _ _ Heq); [done|].
        apply (unique_ids_off_path forest p q P); tauto.
      * intros Hanc. apply addSectionNode_miss.
        intros Hin. apply Hanc. now apply (unique_ids_subtree forest p q P B).
  - rewrite (rewrite_below_hit _ _ _ Heq p _ forest P); try done.
    rewrite get_path_one. now apply list_lookup_middle.
  - intros q Hq Hnew.
    destruct (decide (p `prefix_of` q)) as [Hpre|Hpre].
    + assert (Hqp : q <> p) by congruence.
      destruct (prefix_of_split p q Hqp Hpre) as (r & Hr & ->).
      rewrite (rewrite_below_hit _ _ _ Heq p r forest P); try done.
      apply get_path_snoc_none; [|congruence].
      rewrite <- Hq. symmetry. now apply (get_path_app p r forest P).
    + apply (rewrite_get_path_none _ _ _ Heq); [done|].
      now apply (unique_ids_no_hit_along forest p q P).
  - apply addSectionRecursive_unique; [done| |].
    + apply NoDup_singleton.
    + intros x Hx. simpl in Hx. apply list_elem_of_singleton in Hx. now subst.
Qed.

Lemma insert_appends_witness :
  get_path [0] (addSectionRecursive "r" (newSection "n") forest0)
  = Some (plain "r" ""
            [ plain "a" "x" []; plain "b" "" []; newSection "n" ]).
Proof.
  apply (insert_appends forest0 [0]
           (plain "r" "" [ plain "a" "x" []; plain "b" "" [] ]) "n").
  - exact forest0_unique.
  - reflexivity.
  - apply (bool_decide_unpack _). vm_compute. exact I.
Defined.

(** C2, as the claim words it, for every forest: where two nodes carry
    [parentId], both get the new child, so the forest differs from the
    input in more than one node.  And the identifier of the new child is
    the one that was drawn, new or not. *)
Lemma insert_hits_every_match :
  let forest := [ plain "p" "" []; plain "p" "" [] ] in
  let forest' := addSectionRecursive "p" (newSection "n") forest in
  get_path [0] forest = Some (plain "p" "" []) /\
  get_path [0] forest' = Some (plain "p" "" [ newSection "n" ]) /\
  get_path [1] forest' = Some (plain "p" "" [ newSection "n" ]) /\
  ~ (forall q B, q <> [0] -> get_path q forest = Some B ->
       get_path q forest' = Some B) /\
  all_ids (addSectionRecursive "p" (newSection "p") [ plain "p" "" [] ])
  = ["p"; "p"].
Proof.
  repeat split. intros H.
  specialize (H [1] _ ltac:(discriminate) eq_refl). discriminate H.
Qed.

(** ** Documents the editor builds *)

(** C5. A forest that starts as the forest of the initial document of a
    new CV and grows by [addSection] rewrites, each with an identifier
    drawn for the new section that the forest does not hold yet, never
    has two sections with the same identifier, at any depth. *)
Theorem built_unique_ids (forest : list Section) :
  built forest -> unique_ids forest.
Proof.
  induction 1 as [uuid|forest parentId uuid Hd IH Hfresh].
  - unfold unique_ids. simpl. apply NoDup_singleton.
  - apply addSectionRecursive_unique; [done| |].
    + apply NoDup_singleton.
    + intros x Hx. simpl in Hx. apply list_elem_of_singleton in Hx. now subst.
Qed.

Lemma built_unique_ids_witness :
  unique_ids (addSectionRecursive "b" (newSection "c")
                (addSectionRecursive "a" (newSection "b")
                   (sections (initialCVData "a")))).
Proof.
  apply built_unique_ids.
  apply built_add; [apply built_add; [apply built_new|]|];
    apply (bool_decide_unpack _); vm_compute; exact I.
Defined.

(** ** [JSON.parse] after [JSON.stringify] *)

Import JSON.

#[local] Arguments String.append : simpl nomatch.

Lemma append_assoc (a b c : string) : ((a +:+ b) +:+ c = a +:+ (b +:+ c)).
Proof. induction a as [|x a IH]; [reflexivity|]. simpl. now rewrite IH. Qed.

Lemma length_append (a b : string) :
  String.length (a +:+ b) = String.length a + String.length b.
Proof. induction a as [|x a IH]; [reflexivity|]. simpl. now rewrite IH. Qed.

Lemma parse_chars_escape_char c r :
  parse_chars (escape_char c +:+ r) = prepend c (parse_chars r).
Proof. destruct c as [[] [] [] [] [] [] [] []]; reflexivity. Qed.

Lemma parse_chars_escape s rest :
  parse_chars (escape s +:+ String dquote rest) = Ok s rest.
Proof.
  induction s as [|c s IH]; [reflexivity|].
  cbn [escape]. rewrite append_assoc, parse_chars_escape_char. now rewrite IH.
Qed.

Lemma quote_append s rest :
  (quote s +:+ rest) = String dquote (escape s +:+ String dquote rest).
Proof. unfold quote. simpl. now rewrite append_assoc. Qed.


Lemma stringify_head v :
  exists c r, stringify v = String c r /\ starts_value c = true.
Proof.
  destruct v as [|[]|s|items|props]; cbn; eauto.
Qed.

Lemma skip_ws_head c r : is_ws c = false -> skip_ws (String c r) = String c r.
Proof. intros H. simpl. now rewrite H. Qed.

Lemma starts_value_inv c :
  starts_value c = true ->
  is_ws c = false /\ Ascii.eqb c "]" = false /\ Ascii.eqb c "}" = false.
Proof.
  unfold starts_value. rewrite !andb_true_iff, !negb_true_iff. tauto.
Qed.

Lemma parse_array_step fuel c t :
  starts_value c = true ->
  parse_value (S fuel) (String "[" (String c t)) =
  bind (parse_elements fuel (String c t)) (fun l rest => Ok (JArr l) rest).
Proof.
  intros (Hws & Hc & _)%starts_value_inv.
  simpl. rewrite Hws, Hc. reflexivity.
Qed.

Lemma parse_object_step fuel t :
  parse_value (S fuel) (String "{" (String dquote t)) =
  bind (parse_members fuel (String dquote t))
    (fun l rest => Ok (obj_of_members l) rest).
Proof. reflexivity. Qed.

Lemma parse_elements_eq fuel s :
  parse_elements (S fuel) s =
  bind (parse_value fuel s) (fun v rest =>
    match skip_ws rest with
    | String c r =>
        if Ascii.eqb c "," then
          bind (parse_elements fuel r) (fun l rest' => Ok (v :: l) rest')
        else if Ascii.eqb c "]" then Ok [v] r
        else SyntaxError
    | "" => SyntaxError
    end).
Proof. reflexivity. Qed.

Lemma parse_members_step fuel k t :
  parse_members (S fuel) (quote k +:+ String ":" t) =
  bind (parse_value fuel t) (fun v rest1 =>
    match skip_ws rest1 with
    | String c2 r2 =>
        if Ascii.eqb c2 "," then
          bind (parse_members fuel r2) (fun l rest2 => Ok ((k, v) :: l) rest2)
        else if Ascii.eqb c2 "}" then Ok [(k, v)] r2
        else SyntaxError
    | "" => SyntaxError
    end).
Proof.
  rewrite quote_append. simpl. now rewrite parse_chars_escape.
Qed.


Lemma elements_roundtrip items :
  Forall roundtrips items -> items <> [] ->
  forall fuel rest, list_sum (map (fun x => S (size x)) items) <= fuel ->
    parse_elements fuel (elements_with stringify items +:+ rest) = Ok items rest.
Proof.
  induction 1 as [|x r Hx _ IH]; intros Hne fuel rest Hfuel; [done|].
  simpl in Hfuel.
  destruct fuel as [|fuel]; [lia|]. rewrite parse_elements_eq.
  destruct r as [|y r].
  - cbn [elements_with]. rewrite append_assoc, Hx by lia.
    reflexivity.
  - change (elements_with stringify (x :: y :: r))
      with (stringify x +:+ "," +:+ elements_with stringify (y :: r)).
    rewrite !append_assoc, Hx by lia. simpl.
    rewrite IH; [reflexivity|done|]. simpl in *. lia.
Qed.

Lemma members_roundtrip props :
  Forall (fun kv => roundtrips (snd kv)) props -> props <> [] ->
  forall fuel rest, list_sum (map (fun kv => S (size (snd kv))) props) <= fuel ->
    parse_members fuel (members_with stringify props +:+ rest) = Ok props rest.
Proof.
  induction 1 as [|[k x] r Hx _ IH]; intros Hne fuel rest Hfuel; [done|].
  simpl in Hfuel, Hx.
  destruct fuel as [|fuel]; [lia|].
  destruct r as [|y r].
  - cbn [members_with]. rewrite !append_assoc.
    change (":" +:+ stringify x +:+ "}" +:+ rest) with (String ":" (stringify x +:+ "}" +:+ rest)).
    rewrite parse_members_step, Hx by lia.
    reflexivity.
  - change (members_with stringify ((k, x) :: y :: r))
      with (quote k +:+ ":" +:+ stringify x +:+ "," +:+ members_with stringify (y :: r)).
    rewrite !append_assoc.
    change (":" +:+ stringify x +:+ "," +:+ members_with stringify (y :: r) +:+ rest)
      with (String ":" (stringify x +:+ "," +:+ members_with stringify (y :: r) +:+ rest)).
    rewrite parse_members_step, Hx by lia. simpl.
    rewrite IH; [reflexivity|done|]. simpl in *. lia.
Qed.

Lemma obj_set_fresh k v props :
  k ∉ map fst props -> obj_set k v props = props ++ [(k, v)].
Proof.
  induction props as [|[k' v'] r IH]; intros H; [reflexivity|].
  cbn [map fst] in H. apply not_elem_of_cons in H as [Hne H].
  cbn [obj_set]. apply not_eq_sym, String.eqb_neq in Hne. rewrite Hne.
  now rewrite IH.
Qed.

Lemma obj_of_members_nodup props :
  NoDup (map fst props) -> obj_of_members props = JObj props.
Proof.
  unfold obj_of_members. intros H. f_equal.
  enough (G : forall acc, NoDup (map fst (acc ++ props)) ->
    fold_left (fun acc kv => obj_set (fst kv) (snd kv) acc) props acc = acc ++ props).
  { now apply (G []). }
  clear H. induction props as [|[k v] r IH]; intros acc H.
  - now rewrite app_nil_r.
  - cbn [fold_left fst snd].
    rewrite map_app in H. cbn [map fst] in H.
    rewrite obj_set_fresh.
    + rewrite IH; rewrite <- app_assoc; [done|].
      now rewrite map_app.
    + apply NoDup_app in H as (_ & H & _). intros Hin. apply (H k Hin). apply elem_of_cons. now left.
Qed.

Lemma members_head props rest :
  props <> [] ->
  exists t, (members_with stringify props +:+ rest) = String dquote t.
Proof.
  destruct props as [|[k x] r]; [done|]. intros _.
  destruct r; cbn [members_with]; rewrite quote_append; eauto.
Qed.

Lemma elements_head items rest :
  items <> [] ->
  exists c t, (elements_with stringify items +:+ rest) = String c t
    /\ starts_value c = true.
Proof.
  destruct items as [|x r]; [done|]. intros _.
  destruct (stringify_head x) as (c & t & E & Hc).
  destruct r; cbn [elements_with]; rewrite E; simpl; eauto.
Qed.

Lemma parse_value_stringify v :
  wf_jsval v -> roundtrips v.
Proof.
  induction v as [| b | s | items IH | props IH] using jsval_ind;
    intros Hwf fuel rest Hfuel;
    (destruct fuel as [|fuel]; [simpl in Hfuel; lia|]).
  - reflexivity.
  - now destruct b.
  - cbn [stringify]. rewrite quote_append. simpl. now rewrite parse_chars_escape.
  - inversion Hwf as [| | | ? Hitems |]; subst.
    destruct (decide (items = [])) as [->|Hne]; [reflexivity|].
    cbn [stringify]. simpl append.
    destruct (elements_head items rest Hne) as (c & t & E & Hc).
    rewrite E, parse_array_step, <- E by done.
    rewrite elements_roundtrip; [reflexivity| |done|simpl in Hfuel; lia].
    rewrite Forall_forall in *. intros x Hx. apply IH; auto.
  - inversion Hwf as [| | | |? Hnd Hprops]; subst.
    destruct (decide (props = [])) as [->|Hne]; [reflexivity|].
    cbn [stringify]. simpl append.
    destruct (members_head props rest Hne) as (t & E).
    rewrite E, parse_object_step, <- E.
    rewrite members_roundtrip; [|  |done|simpl in Hfuel; lia].
    + simpl. now rewrite obj_of_members_nodup.
    + rewrite Forall_forall in *. intros x Hx. apply IH; auto.
Qed.

Lemma append_nil_r (a : string) : a +:+ "" = a.
Proof. induction a as [|x a IH]; [reflexivity|]. simpl. now rewrite IH. Qed.

Lemma elements_length items :
  Forall (fun x => size x <= String.length (stringify x)) items ->
  list_sum (map (fun x => S (size x)) items)
  <= String.length (elements_with stringify items).
Proof.
  induction 1 as [|x r Hx _ IH]; [simpl; lia|].
  destruct r as [|y r].
  - cbn [elements_with]. rewrite length_append. simpl. lia.
  - change (elements_with stringify (x :: y :: r))
      with (stringify x +:+ "," +:+ elements_with stringify (y :: r)).
    rewrite !length_append. simpl in *. lia.
Qed.

Lemma members_length props :
  Forall (fun kv => size (snd kv) <= String.length (stringify (snd kv))) props ->
  list_sum (map (fun kv => S (size (snd kv))) props)
  <= String.length (members_with stringify props).
Proof.
  induction 1 as [|[k x] r Hx _ IH]; [simpl; lia|].
  destruct r as [|y r].
  - cbn [members_with]. rewrite !length_append. simpl in *. lia.
  - change (members_with stringify ((k, x) :: y :: r))
      with (quote k +:+ ":" +:+ stringify x +:+ "," +:+ members_with stringify (y :: r)).
    rewrite !length_append. simpl in *. lia.
Qed.

Lemma size_le_length v : size v <= String.length (stringify v).
Proof.
  induction v as [| b | s | items IH | props IH] using jsval_ind.
  - simpl. lia.
  - destruct b; simpl; lia.
  - simpl. lia.
  - cbn [stringify size]. simpl String.length.
    pose proof (elements_length items IH). lia.
  - cbn [stringify size]. simpl String.length.
    pose proof (members_length props IH). lia.
Qed.

(** [JSON.parse(JSON.stringify(v))] is [v]. *)
Lemma parse_stringify v : wf_jsval v -> parse (stringify v) = Parsed v.
Proof.
  intros Hwf. unfold parse.
  rewrite <- (append_nil_r (stringify v)) at 2.
  rewrite (parse_value_stringify v Hwf); [reflexivity|].
  pose proof (size_le_length v). lia.
Qed.

(** The text of a value is never empty. *)
Lemma stringify_nonempty v : stringify v <> "".
Proof. destruct (stringify_head v) as (c & r & -> & _). discriminate. Qed.

(** ** Encoded documents *)

Lemma wf_encode_styles s : wf_jsval (encode_styles s).
Proof.
  destruct s as [bg pad mar [bs|] [bw|] [bc|]]; constructor;
    try (apply (bool_decide_unpack _); vm_compute; exact I);
    repeat (apply List.Forall_cons || apply List.Forall_nil); constructor.
Qed.

Lemma wf_encode_section s : wf_jsval (encode_section s).
Proof.
  induction s as [i t c st ch IH] using Section_ind.
  cbn [encode_section]. constructor.
  - apply (bool_decide_unpack _). vm_compute. exact I.
  - repeat (apply List.Forall_cons || apply List.Forall_nil); cbn [snd];
      try (constructor; fail).
    + apply wf_encode_styles.
    + constructor. now apply Forall_map.
Qed.

Lemma wf_encode_CVData d : wf_jsval (encode_CVData d).
Proof.
  constructor; [apply NoDup_singleton|].
  apply List.Forall_cons; [|apply List.Forall_nil]. cbn [snd].
  constructor. apply Forall_map, Forall_forall.
  intros s _. apply wf_encode_section.
Qed.

Lemma type_of_name_type_name t : type_of_name (type_name t) = Some t.
Proof. now destruct t. Qed.

Lemma decode_encode_styles s : decode_styles (encode_styles s) = Some s.
Proof. now destruct s as [bg pad mar [bs|] [bw|] [bc|]]. Qed.

Lemma decode_encode_section s : decode_section (encode_section s) = Some s.
Proof.
  induction s as [i t c st ch IH] using Section_ind.
  cbn [encode_section decode_section].
  change (get_prop "id" _) with (Some (JStr i)).
  change (get_prop "type" _) with (Some (JStr (type_name t))).
  change (get_prop "content" _) with (Some (JStr c)).
  change (get_prop "styles" _) with (Some (encode_styles st)).
  cbn [mbind option_bind as_string]. rewrite type_of_name_type_name.
  cbn [mbind option_bind]. rewrite decode_encode_styles. cbn [mbind option_bind].
  change (String.eqb "id" "children") with false.
  change (String.eqb "type" "children") with false.
  change (String.eqb "content" "children") with false.
  change (String.eqb "styles" "children") with false.
  change (String.eqb "children" "children") with true. cbv iota.
  enough (E : (fix all (l : list jsval) : option (list Section) :=
                 match l with
                 | [] => Some []
                 | y :: r' =>
                     s ← decode_section y; ss ← all r'; Some (s :: ss)
                 end) (map encode_section ch) = Some ch) by now rewrite E.
  induction IH as [|x r Hx _ IHr]; [reflexivity|].
  cbn [map]. rewrite Hx. cbn [mbind option_bind]. now rewrite IHr.
Qed.

Lemma decode_encode_CVData d : decode_CVData (encode_CVData d) = Some d.
Proof.
  destruct d as [forest]. unfold encode_CVData, decode_CVData. cbn [sections].
  change (get_prop "sections" _) with (Some (JArr (map encode_section forest))).
  cbv iota beta.
  enough (E : mapM decode_section (map encode_section forest) = Some forest)
    by now rewrite E.
  induction forest as [|x r IH]; [reflexivity|].
  cbn [map mapM]. rewrite decode_encode_section. cbn. now rewrite IH.
Qed.

(** ** Saving and loading *)

Import Editor.

Lemma truthy_nonempty s : s <> "" -> truthy s = true.
Proof. intros H. unfold truthy. now apply String.eqb_neq in H as ->. Qed.

Lemma loadEffect_stored st cvId savedCV :
  selectedCVId st = Some cvId -> cvId <> "" ->
  localStorage st !! storage_key cvId = Some savedCV -> savedCV <> "" ->
  loadEffect st =
  match JSON.parse savedCV with
  | JSON.Parsed v => Done (setCVData v st)
  | JSON.Throws_SyntaxError => Throws
  | JSON.Not_modelled => Not_modelled
  end.
Proof.
  intros Hsel Hid Hget Htext. unfold loadEffect.
  now rewrite Hsel, (truthy_nonempty cvId Hid), Hget, (truthy_nonempty savedCV Htext).
Qed.

(** C3, as the code has it.  With a CV selected whose identifier is not
    the empty string, [saveCVData] stores the text of the document under
    the key of that CV, whatever was stored before; the load effect for
    that CV, from any editor state over that store, then ends with the
    saved document as [cvData]; and that value reads back as the document
    itself, field for field and child for child. *)
Theorem save_then_load (D : CVData) (cvId : string) (st : State) :
  cvId <> "" -> selectedCVId st = Some cvId ->
  let saved := saveCVData D st in
  localStorage saved !! storage_key cvId
    = Some (JSON.stringify (encode_CVData D)) /\
  (forall v,
     loadEffect (mkState (Some cvId) v (localStorage saved))
     = Done (mkState (Some cvId) (encode_CVData D) (localStorage saved))) /\
  decode_CVData (encode_CVData D) = Some D.
Proof.
  intros Hid Hsel saved.
  assert (Hget : localStorage saved !! storage_key cvId
                 = Some (JSON.stringify (encode_CVData D))).
  { subst saved. unfold saveCVData. rewrite Hsel, (truthy_nonempty cvId Hid).
    cbn [localStorage]. apply lookup_insert_eq. }
  split; [exact Hget|]. split; [|apply decode_encode_CVData].
  intros v.
  rewrite (loadEffect_stored _ cvId (JSON.stringify (encode_CVData D)));
    [|done|done|done|apply stringify_nonempty].
  now rewrite parse_stringify by apply wf_encode_CVData.
Qed.

Lemma save_then_load_witness :
  let st := mkState (Some "cv1") JNull ∅ in
  let saved := saveCVData (mkCVData forest0) st in
  localStorage saved !! storage_key "cv1"
    = Some (JSON.stringify (encode_CVData (mkCVData forest0))) /\
  (forall v,
     loadEffect (mkState (Some "cv1") v (localStorage saved))
     = Done (mkState (Some "cv1") (encode_CVData (mkCVData forest0))
               (localStorage saved))) /\
  decode_CVData (encode_CVData (mkCVData forest0)) = Some (mkCVData forest0).
Proof.
  apply (save_then_load (mkCVData forest0) "cv1" (mkState (Some "cv1") JNull ∅)).
  - discriminate.
  - reflexivity.
Defined.

(** C3, as the claim words it, for every identifier: under the empty
    identifier [saveCVData] stores nothing, and the load effect ends with
    no document. *)
Lemma save_under_empty_id :
  let D := initialCVData "r" in
  let st := mkState (Some "") JNull ∅ in
  saveCVData D st = st /\
  localStorage (saveCVData D st) !! storage_key "" = None /\
  loadEffect (saveCVData D st) = Done (mkState (Some "") JNull ∅) /\
  ~ (forall v, loadEffect (mkState (Some "") v (localStorage (saveCVData D st)))
               = Done (mkState (Some "") (encode_CVData D)
                         (localStorage (saveCVData D st)))).
Proof.
  repeat split. intros H. specialize (H JNull). discriminate H.
Qed.

(** C6, as the code has it.  For a selected CV with stored text: text
    that is not JSON makes the effect throw, which no outcome without a
    record does; text that is JSON is installed as [cvData] as it is,
    whatever its shape; the empty text is taken for no record. *)
Theorem load_of_stored_text (st : State) (cvId savedCV : string) :
  selectedCVId st = Some cvId -> cvId <> "" ->
  localStorage st !! storage_key cvId = Some savedCV ->
  (savedCV <> "" -> JSON.parse savedCV = JSON.Throws_SyntaxError ->
     loadEffect st = Throws) /\
  (forall v, savedCV <> "" -> JSON.parse savedCV = JSON.Parsed v ->
     loadEffect st = Done (setCVData v st)) /\
  (savedCV = "" -> loadEffect st = Done st).
Proof.
  intros Hsel Hid Hget. repeat split.
  - intros Htext Hparse.
    now rewrite (loadEffect_stored st cvId savedCV), Hparse.
  - intros v Htext Hparse.
    now rewrite (loadEffect_stored st cvId savedCV), Hparse.
  - intros ->. unfold loadEffect.
    now rewrite Hsel, (truthy_nonempty cvId Hid), Hget.
Qed.

Lemma load_of_stored_text_witness :
  loadEffect (mkState (Some "cv1") JNull {[ "cv_cv1" := "{" ]}) = Throws /\
  loadEffect (mkState (Some "cv1") JNull {[ "cv_cv1" := "[]" ]})
  = Done (mkState (Some "cv1") (JArr []) {[ "cv_cv1" := "[]" ]}) /\
  loadEffect (mkState (Some "cv1") JNull {[ "cv_cv1" := "" ]})
  = Done (mkState (Some "cv1") JNull {[ "cv_cv1" := "" ]}).
Proof.
  split; [|split].
  - destruct (load_of_stored_text
                (mkState (Some "cv1") JNull {[ "cv_cv1" := "{" ]}) "cv1" "{"
                eq_refl ltac:(discriminate) eq_refl) as (H & _ & _).
    apply H; [discriminate|reflexivity].
  - destruct (load_of_stored_text
                (mkState (Some "cv1") JNull {[ "cv_cv1" := "[]" ]}) "cv1" "[]"
                eq_refl ltac:(discriminate) eq_refl) as (_ & H & _).
    apply (H (JArr [])); [discriminate|reflexivity].
  - destruct (load_of_stored_text
                (mkState (Some "cv1") JNull {[ "cv_cv1" := "" ]}) "cv1" ""
                eq_refl ltac:(discriminate) eq_refl) as (_ & _ & H).
    apply H. reflexivity.
Defined.

(** C6, as the claim words it: a stored value that is no well-formed
    document would make the load fail.  [malformed_text] is installed as
    the document without a word, and the stored text [null] leaves the
    editor as it is without a record. *)
Lemma load_accepts_malformed :
  let st := mkState (Some "cv1") JNull {[ "cv_cv1" := malformed_text ]} in
  let st_null := mkState (Some "cv1") JNull {[ "cv_cv1" := "null" ]} in
  let st_none := mkState (Some "cv1") JNull ∅ in
  JSON.parse malformed_text = JSON.Parsed malformed_value /\
  decode_CVData malformed_value = None /\
  loadEffect st = Done (setCVData malformed_value st) /\
  cvData (setCVData malformed_value st) = malformed_value /\
  loadEffect st_null = Done st_null /\
  loadEffect st_none = Done st_none /\
  cvData st_null = cvData st_none.
Proof.
  repeat split.
Qed.

(** ** A new CV *)

(** C8. [createNewCV] stores, under the key of the new CV, the text of a
    document with one root section and nothing else: a [container] with
    empty content, background [transparent], padding [20px], margin
    [0px], no border property (so that the box is drawn with border
    [none]) and no children.  That text parses back to the document, and
    the load effect for the new CV installs it. *)
Theorem new_cv_document (cvId rootId registry : string) (st : State) :
  let st' := createNewCV cvId rootId registry st in
  let doc := initialCVData rootId in
  localStorage st' !! storage_key cvId
    = Some (JSON.stringify (encode_CVData doc)) /\
  JSON.parse (JSON.stringify (encode_CVData doc))
    = JSON.Parsed (encode_CVData doc) /\
  decode_CVData (encode_CVData doc) = Some doc /\
  loadEffect st'
    = (if truthy cvId then Done (setCVData (encode_CVData doc) st')
       else Done (setCVData JNull st')) /\
  exists root,
    sections doc = [root] /\
    id root = rootId /\ type root = container /\ content root = "" /\
    backgroundColor (styles root) = "transparent" /\
    padding (styles root) = "20px" /\ padding (styles root) <> "0px" /\
    margin (styles root) = "0px" /\
    borderStyle (styles root) = None /\ borderWidth (styles root) = None /\
    borderColor (styles root) = None /\
    CVSection.border (styles root) = "none" /\
    children root = [].
Proof.
  intros st' doc.
  assert (Hget : localStorage st' !! storage_key cvId
                 = Some (JSON.stringify (encode_CVData doc))).
  { subst st'. unfold createNewCV. cbn [localStorage]. apply lookup_insert_eq. }
  assert (Hparse : JSON.parse (JSON.stringify (encode_CVData doc))
                   = JSON.Parsed (encode_CVData doc)).
  { apply parse_stringify, wf_encode_CVData. }
  split; [exact Hget|]. split; [exact Hparse|].
  split; [apply decode_encode_CVData|]. split.
  - unfold loadEffect. change (selectedCVId st') with (Some cvId). cbv iota.
    destruct (truthy cvId); [|reflexivity].
    rewrite Hget.
    rewrite (truthy_nonempty _ (stringify_nonempty (encode_CVData doc))).
    now rewrite Hparse.
  - eexists. split; [reflexivity|]. now repeat split.
Qed.

(** The stored text of a new CV whose root got the identifier ["r"]. *)
Example new_cv_text :
  JSON.stringify (encode_CVData (initialCVData "r"))
  = json_text
      "{'sections':[{'id':'r','type':'container','content':'','styles':{'backgroundColor':'transparent','padding':'20px','margin':'0px'},'children':[]}]}".
Proof. reflexivity. Qed.

(** ** The shape of the sections the editor makes *)

Lemma every_eq P s : every P s = P s && forallb (every P) (children s).
Proof. now destruct s. Qed.

Lemma every_get_path P q forest s :
  forallb (every P) forest = true -> get_path q forest = Some s ->
  P s = true.
Proof.
  revert forest. induction q as [|i q IH]; intros forest Hall Hq; [done|].
  apply get_path_inv in Hq as (x & Hx & Hq).
  apply list_elem_of_lookup_2, list_elem_of_In in Hx.
  rewrite forallb_forall in Hall. specialize (Hall x Hx).
  rewrite every_eq in Hall. apply andb_true_iff in Hall as [Hroot Hch].
  destruct Hq as [[-> ->]|[_ Hq]]; [done|]. now apply (IH (children x)).
Qed.

Lemma every_addSectionNode P parentId n s :
  (forall x cs, P (with_children x cs) = P x) ->
  every P n = true -> every P s = true ->
  every P (addSectionNode parentId n s) = true.
Proof.
  intros HP Hn. induction s as [i t c st ch IH] using Section_ind.
  intros Hs. rewrite addSectionNode_eq. cbn [id children].
  pose proof Hs as Hs'. rewrite every_eq in Hs'. cbn [children] in Hs'.
  apply andb_true_iff in Hs' as [Hroot Hch].
  destruct (String.eqb i parentId).
  - rewrite every_eq, HP, Hroot. cbn [with_children children].
    rewrite forallb_app, Hch. cbn [forallb]. now rewrite Hn.
  - destruct (0 <? length ch)%nat; [|done].
    rewrite every_eq, HP, Hroot. cbn [with_children children andb].
    rewrite forallb_forall in Hch. apply forallb_forall. intros y Hy.
    apply in_map_iff in Hy as (x & <- & Hx).
    rewrite Forall_forall in IH. apply IH; [now apply list_elem_of_In|auto].
Qed.

Lemma built_no_border_props forest :
  built forest -> forallb (every no_border_props) forest = true.
Proof.
  induction 1 as [uuid|forest parentId uuid Hd IH Hfresh]; [reflexivity|].
  unfold addSectionRecursive.
  rewrite forallb_forall in IH. apply forallb_forall. intros y Hy.
  apply in_map_iff in Hy as (x & <- & Hx).
  apply every_addSectionNode; [done|reflexivity|auto].
Qed.

(** C9, as the code has it.  Every section of a forest built by
    [createNewCV] and [addSection] is persisted as an object with the
    five properties [id], [type], [content], [styles], [children], and
    its [styles] object has the three properties [backgroundColor],
    [padding], [margin] and no border property.  The three border
    properties come with the [styles] object that [handleSaveStyles]
    writes, which has all six. *)
Theorem built_sections_shape (forest : list Section) (q : list nat)
    (s : Section) :
  built forest -> get_path q forest = Some s ->
  keys (encode_section s) = ["id"; "type"; "content"; "styles"; "children"] /\
  keys (encode_styles (styles s)) = ["backgroundColor"; "padding"; "margin"] /\
  forall bg pad mar bs bw bc,
    keys (encode_styles (CVSection.saved_styles bg pad mar bs bw bc))
    = ["backgroundColor"; "padding"; "margin";
       "borderStyle"; "borderWidth"; "borderColor"].
Proof.
  intros Hd Hq. split; [now destruct s|]. split; [|reflexivity].
  pose proof (every_get_path _ _ _ _ (built_no_border_props forest Hd) Hq) as H.
  unfold no_border_props in H.
  destruct (styles s) as [bg pad mar [bs|] [bw|] [bc|]]; try discriminate H.
  reflexivity.
Qed.

Lemma built_sections_shape_witness :
  keys (encode_styles (styles (newSection "b")))
  = ["backgroundColor"; "padding"; "margin"].
Proof.
  apply (built_sections_shape
           (addSectionRecursive "a" (newSection "b")
              (sections (initialCVData "a")))
           [0; 0] (newSection "b")).
  - apply built_add; [apply built_new|].
    apply (bool_decide_unpack _). vm_compute. exact I.
  - reflexivity.
Defined.

(** After [handleSaveStyles] on a fresh section its [styles] object has
    the six properties. *)
Example styles_after_handleSaveStyles :
  let saved := CVSection.saved_styles "#ffffff" "10px" "0px" "solid" "1px" "#000000" in
  (keys ∘ encode_styles ∘ styles)
    <$> get_path [0]
          (updateSectionRecursive "n" (only_styles saved) [ newSection "n" ])
  = Some ["backgroundColor"; "padding"; "margin";
          "borderStyle"; "borderWidth"; "borderColor"].
Proof. reflexivity. Qed.

(** C9, as the claim words it: the [styles] of a freshly made section
    would hold all six fields.  Neither the section of [addSection] nor
    the root of [createNewCV] holds a border field. *)
Lemma minted_styles_lack_border :
  keys (encode_styles (styles (newSection "n")))
    = ["backgroundColor"; "padding"; "margin"] /\
  keys (encode_styles (styles (plain "n" "" [])))
    = ["backgroundColor"; "padding"; "margin"] /\
  JSON.stringify (encode_section (newSection "n"))
    = json_text
        "{'id':'n','type':'container','content':'','styles':{'backgroundColor':'transparent','padding':'10px','margin':'0px'},'children':[]}" /\
  (exists root, sections (initialCVData "r") = [root] /\
     keys (encode_styles (styles root))
     = ["backgroundColor"; "padding"; "margin"]) /\
  ~ (forall k, k ∈ ["backgroundColor"; "padding"; "margin";
                    "borderStyle"; "borderWidth"; "borderColor"] ->
       k ∈ keys (encode_styles (styles (newSection "n")))).
Proof.
  repeat split.
  - eexists. split; reflexivity.
  - intros H. specialize (H "borderStyle").
    assert (Hin : "borderStyle" ∈ ["backgroundColor"; "padding"; "margin";
                                   "borderStyle"; "borderWidth"; "borderColor"])
      by (apply (bool_decide_unpack _); vm_compute; exact I).
    specialize (H Hin). revert H.
    apply (bool_decide_unpack _). vm_compute. exact I.
Qed.

(** ** The two handlers on a document *)

Lemma jsval_eqb_refl v : jsval_eqb v v = true.
Proof.
  induction v as [| b | s | items IH | props IH] using jsval_ind.
  - reflexivity.
  - now destruct b.
  - apply String.eqb_refl.
  - cbn [jsval_eqb]. induction IH as [|x r Hx _ IHr]; [reflexivity|].
    now rewrite Hx.
  - cbn [jsval_eqb]. induction IH as [|[k x] r Hx _ IHr]; [reflexivity|].
    cbn [snd] in Hx. now rewrite String.eqb_refl, Hx.
Qed.

Lemma jsval_eqb_eq a b : jsval_eqb a b = true -> a = b.
Proof.
  revert b.
  induction a as [| x | x | items IH | props IH] using jsval_ind;
    intros [| y | y | items' | props'] H; try discriminate H.
  - reflexivity.
  - f_equal. now apply Bool.eqb_prop.
  - f_equal. now apply String.eqb_eq.
  - f_equal. cbn [jsval_eqb] in H. revert items' H.
    induction IH as [|x r Hx _ IHr]; intros [|y r'] H; try discriminate H.
    + reflexivity.
    + apply andb_true_iff in H as [H1 H2]. f_equal; auto.
  - f_equal. cbn [jsval_eqb] in H. revert props' H.
    induction IH as [|[k x] r Hx _ IHr]; intros [|[l y] r'] H;
      try discriminate H.
    + reflexivity.
    + apply andb_true_iff in H as [H1 H3].
      apply andb_true_iff in H1 as [H1 H2].
      apply String.eqb_eq in H1 as ->. cbn [snd] in Hx.
      rewrite (Hx y H2). f_equal. auto.
Qed.

Lemma as_CVData_encode data : as_CVData (encode_CVData data) = Some data.
Proof.
  unfold as_CVData. now rewrite decode_encode_CVData, jsval_eqb_refl.
Qed.

Lemma as_CVData_sound v data : as_CVData v = Some data -> v = encode_CVData data.
Proof.
  unfold as_CVData. destruct (decode_CVData v) as [d|]; [|done].
  destruct (jsval_eqb (encode_CVData d) v) eqn:E; [|done].
  intros [= <-]. symmetry. now apply jsval_eqb_eq.
Qed.

(** On a state whose [cvData] is a document, each handler saves the
    document with the rewritten forest. *)
Lemma updateSection_document sectionId updates st data :
  cvData st = encode_CVData data ->
  updateSection sectionId updates st
  = Done (saveCVData
            (mkCVData (updateSectionRecursive sectionId updates (sections data)))
            st).
Proof.
  intros E. unfold updateSection. rewrite E, as_CVData_encode. reflexivity.
Qed.

Lemma addSection_document parentId direction uuid st data :
  cvData st = encode_CVData data ->
  addSection parentId direction uuid st
  = Done (saveCVData
            (mkCVData (addSectionRecursive parentId (newSection uuid) (sections data)))
            st).
Proof.
  intros E. unfold addSection. rewrite E, as_CVData_encode. reflexivity.
Qed.

(** A new CV, loaded, with one section added under its root. *)
Example new_cv_then_addSection :
  let st0 := mkState None JNull ∅ in
  exists st1 st2,
    loadEffect (createNewCV "cv1" "r" "[]" st0) = Done st1 /\
    addSection "r" vertical "n" st1 = Done st2 /\
    as_CVData (cvData st2)
    = Some (mkCVData
              [ mkSection "r" container ""
                  (mkStyles "transparent" "20px" "0px" None None None)
                  [ newSection "n" ] ]) /\
    localStorage st2 !! "cv_cv1" = Some (JSON.stringify (cvData st2)).
Proof. do 2 eexists. repeat split. Qed.

(** ** An editing session *)

Lemma updateSectionNode_ids sectionId updates s :
  p_id updates = None -> p_children updates = None ->
  ids_of (updateSectionNode sectionId updates s) = ids_of s.
Proof.
  intros Hid Hch. induction s as [i t c st ch IH] using Section_ind.
  rewrite updateSectionNode_eq. cbn [id children].
  destruct (String.eqb i sectionId).
  - unfold spread. now rewrite Hid, Hch.
  - destruct (0 <? length ch)%nat; [|done].
    rewrite !ids_of_eq. cbn [with_children id children]. f_equal.
    induction IH as [|x r Hx _ IHr]; [reflexivity|].
    cbn [map]. rewrite !all_ids_cons. now rewrite Hx, IHr.
Qed.

Lemma updateSectionRecursive_ids sectionId updates forest :
  p_id updates = None -> p_children updates = None ->
  all_ids (updateSectionRecursive sectionId updates forest) = all_ids forest.
Proof.
  intros Hid Hch. unfold updateSectionRecursive.
  induction forest as [|x r IH]; [reflexivity|].
  cbn [map]. rewrite !all_ids_cons.
  now rewrite updateSectionNode_ids, IH.
Qed.

Lemma loadEffect_createNewCV cvId rootId registry st :
  cvId <> "" ->
  loadEffect (createNewCV cvId rootId registry st)
  = Done (setCVData (encode_CVData (initialCVData rootId))
            (createNewCV cvId rootId registry st)).
Proof.
  intros Hid.
  rewrite (loadEffect_stored _ cvId
             (JSON.stringify (encode_CVData (initialCVData rootId))));
    [|done|done|apply lookup_insert_eq|apply stringify_nonempty].
  now rewrite parse_stringify by apply wf_encode_CVData.
Qed.

Lemma saveCVData_in_sync st cvId data :
  selectedCVId st = Some cvId -> cvId <> "" -> unique_ids (sections data) ->
  in_sync (saveCVData data st).
Proof.
  intros Hsel Hid Hu. exists cvId, data. unfold saveCVData.
  rewrite Hsel, (truthy_nonempty cvId Hid). cbn [selectedCVId cvData localStorage].
  repeat split; try done. apply lookup_insert_eq.
Qed.

(** Throughout an editing session the editor shows a document with
    unique identifiers, and the store holds its text under the key of
    the selected CV. *)
Theorem reachable_in_sync (st : State) : reachable st -> in_sync st.
Proof.
  induction 1 as [st st' cvId rootId registry Hid Hload
                 |st st' parentId uuid direction Hst IH Hfresh Hadd
                 |st st' sectionId updates Hst IH Hpid Hpch Hupd].
  - rewrite (loadEffect_createNewCV _ _ _ _ Hid) in Hload.
    injection Hload as <-. exists cvId, (initialCVData rootId).
    repeat split; try done.
    + apply NoDup_singleton.
    + apply lookup_insert_eq.
  - destruct IH as (cvId & data & Hsel & Hid & Hdata & Hu & _).
    rewrite (addSection_document _ _ _ _ data Hdata) in Hadd.
    injection Hadd as <-. apply (saveCVData_in_sync st cvId); try done.
    cbn [sections]. apply addSectionRecursive_unique; [done| |].
    + apply NoDup_singleton.
    + intros x Hx. simpl in Hx. apply list_elem_of_singleton in Hx. subst x.
      apply Hfresh. rewrite Hdata. apply as_CVData_encode.
  - destruct IH as (cvId & data & Hsel & Hid & Hdata & Hu & _).
    rewrite (updateSection_document _ _ _ data Hdata) in Hupd.
    injection Hupd as <-. apply (saveCVData_in_sync st cvId); try done.
    cbn [sections]. unfold unique_ids.
    now rewrite updateSectionRecursive_ids.
Qed.

(** * Further properties of the rewrites *)

(** ** Two rewrites in either order *)

Section Commute.
Variable t1 t2 : string.
Variable hit1 hit2 : Section -> Section.
Variable f1 f2 : Section -> Section.
Hypothesis f1_eq : forall s,
  f1 s = if String.eqb (id s) t1 then hit1 s
         else if (0 <? length (children s))%nat
              then with_children s (map f1 (children s))
              else s.
Hypothesis f2_eq : forall s,
  f2 s = if String.eqb (id s) t2 then hit2 s
         else if (0 <? length (children s))%nat
              then with_children s (map f2 (children s))
              else s.
Hypothesis hit1_id : forall s, id (hit1 s) = id s.
Hypothesis hit2_id : forall s, id (hit2 s) = id s.
Hypothesis hit1_over : forall s,
  hit1 (with_children s (map f2 (children s)))
  = with_children (hit1 s) (map f2 (children (hit1 s))).
Hypothesis hit2_over : forall s,
  hit2 (with_children s (map f1 (children s)))
  = with_children (hit2 s) (map f1 (children (hit2 s))).
Hypothesis hit_both : t1 = t2 -> forall s, hit1 (hit2 s) = hit2 (hit1 s).

Lemma rewrites_commute s : f1 (f2 s) = f2 (f1 s).
Proof.
  induction s as [i t c st ch IH] using Section_ind.
  set (s := mkSection i t c st ch).
  destruct (decide (i = t1)) as [E1|N1], (decide (i = t2)) as [E2|N2].
  - rewrite (rewrite_hit t2 hit2 f2 f2_eq s E2), (rewrite_hit t1 hit1 f1 f1_eq s E1).
    rewrite (rewrite_hit t1 hit1 f1 f1_eq), (rewrite_hit t2 hit2 f2 f2_eq);
      [|now rewrite hit1_id|now rewrite hit2_id].
    apply hit_both. congruence.
  - rewrite (rewrite_pass t2 hit2 f2 f2_eq s N2), (rewrite_hit t1 hit1 f1 f1_eq s E1).
    rewrite (rewrite_hit t1 hit1 f1 f1_eq); [|done].
    rewrite (rewrite_pass t2 hit2 f2 f2_eq); [|now rewrite hit1_id].
    apply hit1_over.
  - rewrite (rewrite_hit t2 hit2 f2 f2_eq s E2), (rewrite_pass t1 hit1 f1 f1_eq s N1).
    rewrite (rewrite_hit t2 hit2 f2 f2_eq); [|done].
    rewrite (rewrite_pass t1 hit1 f1 f1_eq); [|now rewrite hit2_id].
    symmetry. apply hit2_over.
  - rewrite (rewrite_pass t2 hit2 f2 f2_eq s N2), (rewrite_pass t1 hit1 f1 f1_eq s N1).
    rewrite (rewrite_pass t1 hit1 f1 f1_eq), (rewrite_pass t2 hit2 f2 f2_eq);
      [|done|done].
    subst s. cbn [with_children id type content styles children]. f_equal.
    rewrite !map_map. apply map_ext_Forall. exact IH.
Qed.

Lemma rewrites_commute_forest forest :
  map f1 (map f2 forest) = map f2 (map f1 forest).
Proof. rewrite !map_map. apply map_ext. intros s. apply rewrites_commute. Qed.
End Commute.

Lemma spread_over_children s updates cs :
  p_children updates = None ->
  spread (with_children s cs) updates
  = with_children (spread s updates) cs.
Proof. intros H. unfold spread, with_children. cbn. now rewrite H. Qed.

Lemma spread_keeps_children s updates :
  p_children updates = None -> children (spread s updates) = children s.
Proof. intros H. unfold spread. cbn. now rewrite H. Qed.

Lemma spread_keeps_id s updates :
  p_id updates = None -> id (spread s updates) = id s.
Proof. intros H. unfold spread. cbn. now rewrite H. Qed.

Lemma update_over_children updates (f : Section -> Section) s :
  p_children updates = None ->
  spread (with_children s (map f (children s))) updates
  = with_children (spread s updates) (map f (children (spread s updates))).
Proof.
  intros H. now rewrite spread_over_children, spread_keeps_children.
Qed.

Lemma add_over_children n (f : Section -> Section) s :
  f n = n ->
  with_children (with_children s (map f (children s)))
    (children (with_children s (map f (children s))) ++ [n])
  = with_children (with_children s (children s ++ [n]))
      (map f (children (with_children s (children s ++ [n])))).
Proof.
  intros H. cbn [with_children children id type content styles].
  now rewrite map_app, (map_cons f n), H.
Qed.

(** X1. Two updates aimed at different identifiers give the same forest
    in either order, when neither update object carries [id] or
    [children]: what is typed into one section does not depend on what
    was saved in another one first. *)
Theorem updates_commute (forest : list Section) (a b : string)
    (u v : PartialSection) :
  a <> b ->
  p_id u = None -> p_children u = None ->
  p_id v = None -> p_children v = None ->
  updateSectionRecursive a u (updateSectionRecursive b v forest)
  = updateSectionRecursive b v (updateSectionRecursive a u forest).
Proof.
  intros Hab Hu1 Hu2 Hv1 Hv2. unfold updateSectionRecursive.
  apply (rewrites_commute_forest a b (fun s => spread s u) (fun s => spread s v)).
  - apply updateSectionNode_eq.
  - apply updateSectionNode_eq.
  - intros s. now apply spread_keeps_id.
  - intros s. now apply spread_keeps_id.
  - intros s. now apply update_over_children.
  - intros s. now apply update_over_children.
  - intros E. contradiction.
Qed.

Lemma updates_commute_witness :
  updateSectionRecursive "a" (content_and_type "hello" text)
    (updateSectionRecursive "r" (only_content "top") forest0)
  = updateSectionRecursive "r" (only_content "top")
      (updateSectionRecursive "a" (content_and_type "hello" text) forest0).
Proof.
  apply (updates_commute forest0 "a" "r"); try reflexivity. discriminate.
Defined.

(** X2. An update and an insertion give the same forest in either order,
    whether or not they aim at the same section, when the update object
    carries neither [id] nor [children] and the new section does not
    hold the updated identifier. *)
Theorem update_and_add_commute (forest : list Section) (sectionId parentId : string)
    (updates : PartialSection) (n : Section) :
  p_id updates = None -> p_children updates = None ->
  sectionId ∉ ids_of n ->
  updateSectionRecursive sectionId updates (addSectionRecursive parentId n forest)
  = addSectionRecursive parentId n (updateSectionRecursive sectionId updates forest).
Proof.
  intros Hu1 Hu2 Hn. unfold updateSectionRecursive, addSectionRecursive.
  apply (rewrites_commute_forest sectionId parentId
           (fun s => spread s updates)
           (fun s => with_children s (children s ++ [n]))).
  - apply updateSectionNode_eq.
  - apply addSectionNode_eq.
  - intros s. now apply spread_keeps_id.
  - reflexivity.
  - intros s. now apply update_over_children.
  - intros s. apply add_over_children. now apply updateSectionNode_miss.
  - intros _ s. rewrite spread_over_children by done.
    now rewrite spread_keeps_children.
Qed.

Lemma update_and_add_commute_witness :
  updateSectionRecursive "r" (only_content "top")
    (addSectionRecursive "r" (newSection "n") forest0)
  = addSectionRecursive "r" (newSection "n")
      (updateSectionRecursive "r" (only_content "top") forest0).
Proof.
  apply (update_and_add_commute forest0 "r" "r"); try reflexivity.
  apply (bool_decide_unpack _). vm_compute. exact I.
Defined.

(** X3. Two insertions under different parents give the same forest in
    either order, when neither new section holds the other parent's
    identifier. *)
Theorem adds_commute (forest : list Section) (p q : string) (n m : Section) :
  p <> q -> q ∉ ids_of n -> p ∉ ids_of m ->
  addSectionRecursive p n (addSectionRecursive q m forest)
  = addSectionRecursive q m (addSectionRecursive p n forest).
Proof.
  intros Hpq Hn Hm. unfold addSectionRecursive.
  apply (rewrites_commute_forest p q
           (fun s => with_children s (children s ++ [n]))
           (fun s => with_children s (children s ++ [m]))).
  - apply addSectionNode_eq.
  - apply addSectionNode_eq.
  - reflexivity.
  - reflexivity.
  - intros s. apply add_over_children. now apply addSectionNode_miss.
  - intros s. apply add_over_children. now apply addSectionNode_miss.
  - intros E. contradiction.
Qed.

Lemma adds_commute_witness :
  addSectionRecursive "a" (newSection "n")
    (addSectionRecursive "r" (newSection "m") forest0)
  = addSectionRecursive "r" (newSection "m")
      (addSectionRecursive "a" (newSection "n") forest0).
Proof.
  apply (adds_commute forest0 "a" "r"); try discriminate;
    apply (bool_decide_unpack _); vm_compute; exact I.
Defined.

(** Two insertions under the same parent do depend on the order. *)
Example adds_under_one_parent :
  all_ids (addSectionRecursive "s" (newSection "n")
             (addSectionRecursive "s" (newSection "m") [ plain "s" "" [] ]))
  = ["s"; "m"; "n"].
Proof. reflexivity. Qed.

(** ** An update twice *)

Lemma spread_spread s updates : spread (spread s updates) updates = spread s updates.
Proof.
  destruct updates as [[i|] [t|] [c|] [st|] [ch|]]; reflexivity.
Qed.

Lemma updateSectionNode_twice sectionId updates s :
  p_id updates = None \/ p_id updates = Some sectionId ->
  updateSectionNode sectionId updates (updateSectionNode sectionId updates s)
  = updateSectionNode sectionId updates s.
Proof.
  intros Hid. pose proof (updateSectionNode_eq sectionId updates) as Heq.
  induction s as [i t c st ch IH] using Section_ind.
  set (s := mkSection i t c st ch).
  destruct (decide (i = sectionId)) as [E|N].
  - rewrite (rewrite_hit _ _ _ Heq s E).
    rewrite (rewrite_hit _ _ _ Heq); [apply spread_spread|].
    unfold spread. cbn. destruct Hid as [-> | ->]; [exact E|reflexivity].
  - rewrite (rewrite_pass _ _ _ Heq s N).
    rewrite (rewrite_pass _ _ _ Heq); [|done].
    subst s. cbn [with_children id type content styles children]. f_equal.
    rewrite map_map. apply map_ext_Forall. exact IH.
Qed.

(** X4. The same update applied twice gives what it gives once, when the
    update object leaves the identifier as it is. *)
Theorem update_twice (forest : list Section) (sectionId : string)
    (updates : PartialSection) :
  p_id updates = None \/ p_id updates = Some sectionId ->
  updateSectionRecursive sectionId updates
    (updateSectionRecursive sectionId updates forest)
  = updateSectionRecursive sectionId updates forest.
Proof.
  intros Hid. unfold updateSectionRecursive. rewrite map_map.
  apply map_ext. intros s. now apply updateSectionNode_twice.
Qed.

Lemma update_twice_witness :
  updateSectionRecursive "r" (only_children [])
    (updateSectionRecursive "r" (only_children []) forest0)
  = updateSectionRecursive "r" (only_children []) forest0.
Proof. apply (update_twice forest0 "r"). now left. Defined.

(** With an [id] in the update object the second pass finds other
    nodes. *)
Example update_twice_renaming :
  let u := mkPartial (Some "b") None (Some "y") None None in
  let forest := [ plain "a" "" [ plain "a" "" [] ] ] in
  updateSectionRecursive "a" u forest = [ plain "b" "y" [ plain "a" "" [] ] ] /\
  updateSectionRecursive "a" u (updateSectionRecursive "a" u forest)
  = [ plain "b" "y" [ plain "b" "y" [] ] ].
Proof. split; reflexivity. Qed.

(** ** What the rewrites keep *)

(** X5. An update whose object carries neither [id] nor [children] keeps
    the identifiers of the forest, in document order; a forest with
    unique identifiers stays one. *)
Theorem update_keeps_all_ids (forest : list Section) (sectionId : string)
    (updates : PartialSection) :
  p_id updates = None -> p_children updates = None ->
  all_ids (updateSectionRecursive sectionId updates forest) = all_ids forest /\
  (unique_ids forest ->
   unique_ids (updateSectionRecursive sectionId updates forest)).
Proof.
  intros Hid Hch.
  pose proof (updateSectionRecursive_ids sectionId updates forest Hid Hch) as E.
  split; [exact E|]. unfold unique_ids. now rewrite E.
Qed.

Lemma update_keeps_all_ids_witness :
  all_ids (updateSectionRecursive "a" (content_and_type "hello" text) forest0)
  = ["r"; "a"; "b"; "s"] /\
  unique_ids (updateSectionRecursive "a" (content_and_type "hello" text) forest0).
Proof.
  destruct (update_keeps_all_ids forest0 "a" (content_and_type "hello" text)
              eq_refl eq_refl) as [E Hu].
  split; [exact E|exact (Hu forest0_unique)].
Defined.

Lemma addSectionNode_sublist parentId n s :
  ids_of s `sublist_of` ids_of (addSectionNode parentId n s).
Proof.
  pose proof (addSectionNode_eq parentId n) as Heq.
  induction s as [i t c st ch IH] using Section_ind.
  set (s := mkSection i t c st ch).
  destruct (decide (i = parentId)) as [E|N].
  - rewrite (rewrite_hit _ _ _ Heq s E). subst s.
    rewrite !ids_of_eq. cbn [with_children id children].
    apply sublist_skip. rewrite all_ids_app. now apply sublist_inserts_r.
  - rewrite (rewrite_pass _ _ _ Heq s N). subst s.
    rewrite !ids_of_eq. cbn [with_children id children].
    apply sublist_skip.
    induction IH as [|x r Hx _ IHr]; [done|].
    cbn [map]. rewrite !all_ids_cons. now apply sublist_app.
Qed.

(** X6. An insertion removes no section and moves none: the identifiers
    of the forest, in document order, are still there in that order
    among those of the result, and the roots are the same in number and
    in their identifiers, so no section ever becomes a new root. *)
Theorem add_never_removes (forest : list Section) (parentId : string)
    (n : Section) :
  all_ids forest `sublist_of` all_ids (addSectionRecursive parentId n forest) /\
  map id (addSectionRecursive parentId n forest) = map id forest.
Proof.
  unfold addSectionRecursive. split.
  - induction forest as [|x r IH]; [done|].
    cbn [map]. rewrite !all_ids_cons.
    apply sublist_app; [apply addSectionNode_sublist|exact IH].
  - rewrite map_map. apply map_ext. intros s.
    apply (rewrite_id parentId (fun s => with_children s (children s ++ [n]))).
    + apply addSectionNode_eq.
    + reflexivity.
Qed.

(** * Further properties of loading and saving *)

Lemma storage_key_inj a b : storage_key a = storage_key b -> a = b.
Proof. unfold storage_key. simpl. now intros [= ->]. Qed.

Lemma storage_key_not_cvs cvId : storage_key cvId <> "cvs".
Proof. unfold storage_key. simpl. destruct cvId as [|c r]; discriminate. Qed.

(** X7. The load effect reads: whatever it ends in, the store and the
    selection are as before, and [cvData] is as before, or [null], or
    the value of the text stored for the selected CV. *)
Theorem load_keeps_store (st st' : State) :
  loadEffect st = Done st' ->
  localStorage st' = localStorage st /\
  selectedCVId st' = selectedCVId st /\
  (cvData st' = cvData st \/ cvData st' = JNull \/
   exists cvId savedCV,
     selectedCVId st = Some cvId /\
     localStorage st !! storage_key cvId = Some savedCV /\
     JSON.parse savedCV = JSON.Parsed (cvData st')).
Proof.
  unfold loadEffect.
  destruct (selectedCVId st) as [cvId|] eqn:Hsel;
    [destruct (truthy cvId)|]; try (intros [= <-]; now auto).
  destruct (localStorage st !! storage_key cvId) as [savedCV|] eqn:Hget;
    [destruct (truthy savedCV)|]; try (intros [= <-]; now auto).
  destruct (JSON.parse savedCV) as [v| |] eqn:Hparse; try discriminate.
  intros [= <-]. cbn. repeat split; try done. right. right. eauto.
Qed.

Lemma load_keeps_store_witness :
  let st := mkState (Some "cv1") JNull {[ "cv_cv1" := "[]" ]} in
  let st' := mkState (Some "cv1") (JArr []) {[ "cv_cv1" := "[]" ]} in
  localStorage st' = localStorage st /\
  selectedCVId st' = selectedCVId st /\
  (cvData st' = cvData st \/ cvData st' = JNull \/
   exists cvId savedCV,
     selectedCVId st = Some cvId /\
     localStorage st !! storage_key cvId = Some savedCV /\
     JSON.parse savedCV = JSON.Parsed (cvData st')).
Proof.
  apply (load_keeps_store
           (mkState (Some "cv1") JNull {[ "cv_cv1" := "[]" ]})
           (mkState (Some "cv1") (JArr []) {[ "cv_cv1" := "[]" ]})).
  reflexivity.
Defined.

Lemma saveCVData_other_keys data st k :
  (forall cvId, selectedCVId st = Some cvId -> k <> storage_key cvId) ->
  localStorage (saveCVData data st) !! k = localStorage st !! k.
Proof.
  intros Hk. unfold saveCVData.
  destruct (selectedCVId st) as [cvId|] eqn:Hsel; [|done].
  destruct (truthy cvId); [|done]. cbn [localStorage].
  apply lookup_insert_ne. intros E. now apply (Hk cvId).
Qed.

Lemma saveCVData_selectedCVId data st :
  selectedCVId (saveCVData data st) = selectedCVId st.
Proof.
  unfold saveCVData. destruct (selectedCVId st) as [cvId|] eqn:Hsel; [|done].
  now destruct (truthy cvId).
Qed.

Lemma handler_cases st st' (f : CVData -> CVData) :
  (if falsy (cvData st) then Done st
   else match as_CVData (cvData st) with
        | Some data => Done (saveCVData (f data) st)
        | None => Not_modelled
        end) = Done st' ->
  st' = st \/ exists data, st' = saveCVData data st.
Proof.
  destruct (falsy (cvData st)); [intros [= <-]; now left|].
  destruct (as_CVData (cvData st)) as [data|]; [|discriminate].
  intros [= <-]. right. eauto.
Qed.

(** X8. An edit writes one record at most: after [updateSection] or
    [addSection] the selection is as before, the registry under ["cvs"]
    is as before, and so is the record of every CV other than the
    selected one. *)
Theorem edit_touches_one_record (st st' : State) (sectionId uuid : string)
    (updates : PartialSection) (direction : Direction) :
  updateSection sectionId updates st = Done st' \/
  addSection sectionId direction uuid st = Done st' ->
  selectedCVId st' = selectedCVId st /\
  localStorage st' !! "cvs" = localStorage st !! "cvs" /\
  forall other, selectedCVId st <> Some other ->
    localStorage st' !! storage_key other = localStorage st !! storage_key other.
Proof.
  intros H.
  assert (Hst : st' = st \/ exists data, st' = saveCVData data st).
  { destruct H as [H|H]; [unfold updateSection in H|unfold addSection in H];
      cbv zeta in H; exact (handler_cases _ _ _ H). }
  destruct Hst as [->|[data ->]]; [done|].
  split; [apply saveCVData_selectedCVId|]. split.
  - apply saveCVData_other_keys. intros cvId _ E.
    symmetry in E. now apply storage_key_not_cvs in E.
  - intros other Hother. apply saveCVData_other_keys.
    intros cvId Hsel E. apply storage_key_inj in E. congruence.
Qed.

Lemma edit_touches_one_record_witness :
  let st := mkState (Some "cv1") (encode_CVData (initialCVData "r"))
              {[ "cv_cv2" := "[]" ]} in
  exists st', addSection "r" vertical "n" st = Done st' /\
    localStorage st' !! storage_key "cv2" = Some "[]" /\
    localStorage st' !! "cvs" = None.
Proof.
  eexists. split; [reflexivity|].
  destruct (edit_touches_one_record
              (mkState (Some "cv1") (encode_CVData (initialCVData "r"))
                 {[ "cv_cv2" := "[]" ]})
              _ "r" "n" (only_content "") vertical
              (or_intror eq_refl)) as (_ & Hcvs & Hother).
  split; [rewrite (Hother "cv2"); [reflexivity|discriminate]|].
  rewrite Hcvs. reflexivity.
Defined.

(** X9. The last save wins: saving one document and then another leaves
    the state that saving the second one alone leaves, with or without a
    CV selected. *)
Theorem save_overwrites (d1 d2 : CVData) (st : State) :
  saveCVData d2 (saveCVData d1 st) = saveCVData d2 st.
Proof.
  unfold saveCVData.
  destruct (selectedCVId st) as [cvId|] eqn:Hsel; cbn [selectedCVId]; rewrite ?Hsel;
    [|reflexivity].
  destruct (truthy cvId) eqn:Ht; cbn [selectedCVId localStorage];
    rewrite ?Hsel, ?Ht; [|reflexivity].
  now rewrite insert_insert_eq.
Qed.

(** X10. When the selected CV has no stored record the load effect
    leaves the state as it is: the editor keeps the document it held for
    the CV selected before, and the next edit stores that document,
    edited, under the key of the newly selected CV. *)
Theorem load_without_record (st : State) (cvId sectionId : string)
    (updates : PartialSection) (data : CVData) :
  selectedCVId st = Some cvId -> cvId <> "" ->
  localStorage st !! storage_key cvId = None ->
  cvData st = encode_CVData data ->
  loadEffect st = Done st /\
  exists st',
    updateSection sectionId updates st = Done st' /\
    localStorage st' !! storage_key cvId
    = Some (JSON.stringify (encode_CVData
              (mkCVData (updateSectionRecursive sectionId updates (sections data))))).
Proof.
  intros Hsel Hid Hget Hdata. split.
  - unfold loadEffect. now rewrite Hsel, (truthy_nonempty cvId Hid), Hget.
  - eexists. split; [exact (updateSection_document _ _ _ data Hdata)|].
    unfold saveCVData. rewrite Hsel, (truthy_nonempty cvId Hid).
    cbn [localStorage]. apply lookup_insert_eq.
Qed.

Lemma load_without_record_witness :
  let st := mkState (Some "cv2") (encode_CVData (mkCVData forest0))
              {[ "cv_cv1" := JSON.stringify (encode_CVData (mkCVData forest0)) ]} in
  loadEffect st = Done st /\
  exists st',
    updateSection "a" (only_content "y") st = Done st' /\
    localStorage st' !! storage_key "cv2"
    = Some (JSON.stringify (encode_CVData
              (mkCVData (updateSectionRecursive "a" (only_content "y") forest0)))).
Proof.
  apply (load_without_record
           (mkState (Some "cv2") (encode_CVData (mkCVData forest0))
              {[ "cv_cv1" := JSON.stringify (encode_CVData (mkCVData forest0)) ]})
           "cv2" "a" (only_content "y") (mkCVData forest0));
    try reflexivity. discriminate.
Defined.

(** * A session with the sidebar *)

Module RegistryFacts.
Import Registry.


















End RegistryFacts.

(** * The section component *)




(** A fresh section, after the dialog was opened and saved. *)
Example style_dialog_on_new_section :
  styles (SectionComponent.reopen_and_save (newSection "n")
            (SectionComponent.mount (newSection "n")))
  = mkStyles "transparent" "10px" "0px" (Some "none") (Some "1px") (Some "#000000").
Proof. reflexivity. Qed.







(** An update in place, for any update object that carries neither [id]
    nor [children]. *)
Lemma update_in_place forest p A updates :
  unique_ids forest -> get_path p forest = Some A ->
  p_id updates = None -> p_children updates = None ->
  let forest' := updateSectionRecursive (id A) updates forest in
  get_path p forest' = Some (spread A updates) /\
  (forall q B, ~ q `prefix_of` p -> get_path q forest = Some B ->
     get_path q forest' = Some B).
Proof.
  intros Hu HA Hpid Hpch forest'. subst forest'. unfold updateSectionRecursive.
  pose proof (updateSectionNode_eq (id A) updates) as Heq.
  split.
  - rewrite (rewrite_get_path _ _ _ Heq p forest A HA).
    + now rewrite (rewrite_hit _ _ _ Heq).
    + now apply unique_ids_no_ancestor_hit.
  - intros q B Hanc HB.
    assert (Hqp : q <> p) by (intros ->; now apply Hanc).
    destruct (decide (p `prefix_of` q)) as [Hpre|Hpre].
    + destruct (prefix_of_split p q Hqp Hpre) as (r & Hr & ->).
      rewrite (rewrite_below_hit _ _ _ Heq p r forest A); try done.
      * rewrite spread_keeps_children by done.
        rewrite <- HB. symmetry. now apply (get_path_app p r forest A).
      * now apply unique_ids_no_ancestor_hit.
    + rewrite (rewrite_get_path _ _ _ Heq q forest B HB).
      * f_equal. apply updateSectionNode_miss. intros Hin. apply Hanc.
        now apply (unique_ids_subtree forest p q A B).
      * apply (unique_ids_off_path forest p q A); tauto.
Qed.

(** X15. Each of the three calls a section's dialogs make (text saved,
    styles saved, image read) updates that section in place: in a forest
    with unique identifiers the node at the section's position becomes
    the section with the fields of the call, its identifier and children
    as before, every node that is not one of its ancestors is as before,
    and so are the identifiers of the forest. *)
Theorem section_calls_update_in_place (forest : list Section) (p : list nat)
    (A : Section) (l : SectionComponent.Local) (imageUrl : string)
    (c : SectionComponent.call) :
  unique_ids forest -> get_path p forest = Some A ->
  c ∈ [ fst (SectionComponent.handleSaveText A l);
        fst (SectionComponent.handleSaveStyles A l);
        SectionComponent.onload A imageUrl ] ->
  let forest' := updateSectionRecursive (fst c) (snd c) forest in
  get_path p forest' = Some (spread A (snd c)) /\
  id (spread A (snd c)) = id A /\
  children (spread A (snd c)) = children A /\
  (forall q B, ~ q `prefix_of` p -> get_path q forest = Some B ->
     get_path q forest' = Some B) /\
  all_ids forest' = all_ids forest.
Proof.
  intros Hu HA Hc.
  assert (H : fst c = id A /\ p_id (snd c) = None /\ p_children (snd c) = None).
  { repeat (apply elem_of_cons in Hc as [->|Hc]; [now cbn|]).
    now apply elem_of_nil in Hc. }
  destruct H as (Hfst & Hpid & Hpch). rewrite Hfst. cbv zeta.
  destruct (update_in_place forest p A (snd c) Hu HA Hpid Hpch) as [Hat Hoff].
  split; [exact Hat|]. split; [now apply spread_keeps_id|].
  split; [now apply spread_keeps_children|]. split; [exact Hoff|].
  now apply updateSectionRecursive_ids.
Qed.

Lemma section_calls_update_in_place_witness :
  let A := plain "a" "x" [] in
  let l := SectionComponent.setTextContent "hello"
             (SectionComponent.handleInsertText A (SectionComponent.mount A)) in
  get_path [0; 0]
    (updateSectionRecursive "a" (content_and_type "hello" text) forest0)
  = Some (mkSection "a" text "hello"
            (mkStyles "transparent" "10px" "0px" None None None) []).
Proof.
  intros A l.
  assert (Hc : fst (SectionComponent.handleSaveText A l)
               ∈ [ fst (SectionComponent.handleSaveText A l);
                   fst (SectionComponent.handleSaveStyles A l);
                   SectionComponent.onload A "" ])
    by (apply elem_of_cons; now left).
  exact (proj1 (section_calls_update_in_place forest0 [0; 0] A l ""
                  (fst (SectionComponent.handleSaveText A l))
                  forest0_unique eq_refl Hc)).
Defined.

(** * The sign-in form *)

(** X16. [handleAuth] sends nothing while the email or the password is
    empty, and otherwise exactly one request; it navigates to [/app]
    exactly when the service answered that request with a session and no
    error, and nowhere else; once a request was sent [loading] is off at
    the end; and a sign-in that is answered with neither an error nor a
    session shows nothing at all. *)
Theorem handleAuth_outcomes (isLogin : bool) (email password origin : string)
    (loading0 : bool) (service : Auth.Request -> Auth.Response) :
  let run := Auth.handleAuth isLogin email password loading0 origin service in
  (Auth.sent run = None <-> email = "" \/ password = "") /\
  (Auth.navigated run = Some "/app" <->
     exists request,
       Auth.sent run = Some request /\
       service request = Auth.Resolved None true) /\
  (Auth.navigated run = None \/ Auth.navigated run = Some "/app") /\
  (Auth.sent run <> None -> Auth.loading run = false) /\
  (isLogin = true ->
   (exists request,
      Auth.sent run = Some request /\
      service request = Auth.Resolved None false) ->
   Auth.toasts run = [] /\ Auth.navigated run = None).
Proof.
  unfold Auth.handleAuth.
  assert (Hex : forall (P : Auth.Request -> Prop),
            (exists r, None = Some r /\ P r) -> False)
    by (intros P (r & H & _); discriminate H).
  destruct (String.eqb_spec email "") as [->|He]; cbn [orb].
  { cbn. split; [tauto|]. split; [split; [discriminate|intros H; now apply Hex in H]|].
    split; [now left|]. split; [tauto|]. intros _ H. now apply Hex in H. }
  destruct (String.eqb_spec password "") as [->|Hp].
  { cbn. split; [tauto|]. split; [split; [discriminate|intros H; now apply Hex in H]|].
    split; [now left|]. split; [tauto|]. intros _ H. now apply Hex in H. }
  clear Hex. set (request := if isLogin then _ else _).
  assert (Hsent : forall (P : Auth.Request -> Prop),
            (exists r, Some request = Some r /\ P r) <-> P request).
  { intros P. split; [intros (r & [= <-] & H); exact H|eauto]. }
  destruct (service request) as [[message|] session|] eqn:Hs;
    [|destruct isLogin, session|]; cbn;
    (split; [split; [discriminate|tauto]|]);
    (split; [rewrite (Hsent (fun r => service r = _)), Hs;
             split; (discriminate || reflexivity || congruence)|]);
    (split; [(now left) || (now right)|]);
    (split; [reflexivity|]);
    intros Hlogin H; try discriminate Hlogin;
    apply (Hsent (fun r => service r = _)) in H; rewrite Hs in H;
    try discriminate H; now split.
Qed.

Lemma handleAuth_outcomes_witness :
  let run := Auth.handleAuth true "a@b.c" "secret" false "https://cv.example"
               (fun _ => Auth.Resolved None false) in
  Auth.toasts run = [] /\ Auth.navigated run = None.
Proof.
  destruct (handleAuth_outcomes true "a@b.c" "secret" "https://cv.example" false
              (fun _ => Auth.Resolved None false)) as (_ & _ & _ & _ & H).
  apply H; [reflexivity|]. eexists. split; reflexivity.
Defined.
